(** * pylinger_cosmo: background cosmology and massive-neutrino moments

    Shallow embedding of [pylinger_cosmo.py]: the momentum quadrature
    [ninu1], the perturbation-moment integrator [nu_perturb_jax] /
    [nu_perturb_numpy], the conformal-time derivative [dtauda_] and the
    constructor of class [cosmo].

    Numbers.  The program computes with machine floats through Python,
    numpy and jax.  The embedding is generic in the number type: the
    class [Num] lists the operations the source applies, and the code is
    transcribed over any instance of it.  Statements that only follow the
    data flow hold for every instance.  Statements that need algebra are
    proved for the instance [R_Num] of exact real arithmetic.  Where the
    behaviour of machine floats decides a statement, the instance
    [Binary64.num] runs the code on the kernel's IEEE 754 numbers.

    Arrays.  One-dimensional arrays are lists.  Elementwise operations
    between two arrays follow numpy's broadcasting rule and fail with a
    shape error otherwise, so array code lives in the [result] monad.

    External code.  The spline class [InterpolatedUnivariateSpline]
    (jax_cosmo and scipy), [romb], [geomspace] and the thermal-history
    solver [pylinger_thermo_jax.compute] are not part of this file of the
    program; they are taken as parameters. *)

From Stdlib Require Import List ZArith QArith Reals Lra Lia Bool PeanoNat.
From Stdlib Require Import Qreals.
From Stdlib Require Floats.
Import ListNotations.

Set Implicit Arguments.

(** ** Numbers *)

Declare Scope num_scope.
Delimit Scope num_scope with num.

Class Num (F : Type) : Type := {
  lit   : Q -> F;          (* a decimal literal of the source *)
  of_Z  : Z -> F;          (* an integer used as a number *)
  fadd  : F -> F -> F;
  fsub  : F -> F -> F;
  fmul  : F -> F -> F;
  fdiv  : F -> F -> F;
  fpow  : F -> nat -> F;   (* [x ** n] for a literal exponent n *)
  fsqrt : F -> F;
  fexp  : F -> F;
  flog  : F -> F;
  is_zero : F -> bool      (* [y == 0], the test behind ZeroDivisionError *)
}.

Infix "+" := fadd : num_scope.
Infix "-" := fsub : num_scope.
Infix "*" := fmul : num_scope.
Infix "/" := fdiv : num_scope.
Infix "^" := fpow : num_scope.

Definition of_nat {F} `{Num F} (n : nat) : F := of_Z (Z.of_nat n).

(** Exact real arithmetic. *)
#[export] Instance R_Num : Num R := {
  lit   := Q2R;
  of_Z  := IZR;
  fadd  := Rplus;
  fsub  := Rminus;
  fmul  := Rmult;
  fdiv  := Rdiv;
  fpow  := pow;
  fsqrt := sqrt;
  fexp  := exp;
  flog  := ln;
  is_zero := fun x => if Req_dec_T x 0 then true else false
}.

(** ** Errors *)

Inductive error : Type :=
| ShapeError          (* operands could not be broadcast together *)
| ZeroDivisionError   (* Python float division by zero *)
| InvalidArgument.    (* named by the specification; never raised *)

Inductive result (A : Type) : Type :=
| Ok  (a : A)
| Err (e : error).

Arguments Ok {A} a.
Arguments Err {A} e.

Definition bind {A B} (m : result A) (k : A -> result B) : result B :=
  match m with
  | Ok a  => k a
  | Err e => Err e
  end.

Notation "x <- m ;; k" := (bind m (fun x => k))
  (at level 61, m at next level, right associativity).

Definition is_ok {A} (m : result A) : bool :=
  match m with Ok _ => true | Err _ => false end.

(** [x / y] between two Python floats: a zero divisor raises. *)
Definition py_div {F} `{Num F} (x y : F) : result F :=
  if is_zero y then Err ZeroDivisionError else Ok (fdiv x y).

(** ** Arrays *)

Section Arrays.
Context {F : Type} `{Num F}.

(** [arange(lo, hi)]: the integers lo, lo+1, ..., hi-1. *)
Definition arange (lo hi : nat) : list nat := seq lo (hi - lo).

(** [zeros(n)]. *)
Definition zeros (n : nat) : list F := repeat (lit 0) n.

Fixpoint zip_with (f : F -> F -> F) (xs ys : list F) : list F :=
  match xs, ys with
  | x :: xs', y :: ys' => f x y :: zip_with f xs' ys'
  | _, _ => []
  end.

(** Elementwise operation on two one-dimensional arrays: equal lengths
    combine pointwise, an array of length one is stretched to the other,
    anything else is a shape error. *)
Definition broadcast (f : F -> F -> F) (xs ys : list F) : result (list F) :=
  if Nat.eqb (length xs) (length ys) then Ok (zip_with f xs ys)
  else match xs, ys with
       | [x], _ => Ok (map (fun y => f x y) ys)
       | _, [y] => Ok (map (fun x => f x y) xs)
       | _, _   => Err ShapeError
       end.

(** [g.at[1:].set(x)] and [g[1:] = x]: the slice after the first element
    is overwritten; [x] must have the slice's length or length one. *)
Definition set_tail (g x : list F) : result (list F) :=
  match g with
  | [] => if Nat.eqb (length x) 0 || Nat.eqb (length x) 1
          then Ok [] else Err ShapeError
  | g0 :: rest =>
      if Nat.eqb (length x) (length rest) then Ok (g0 :: x)
      else match x with
           | [y] => Ok (g0 :: repeat y (length rest))
           | _   => Err ShapeError
           end
  end.

(** [xs[-1]] on a non-empty array. *)
Definition last_elt (xs : list F) : F := last xs (lit 0).

(** [rhonu.at[i].set(v)]. *)
Fixpoint set_at (xs : list F) (i : nat) (v : F) : list F :=
  match xs, i with
  | [], _ => []
  | _ :: xs', O => v :: xs'
  | x :: xs', S i' => x :: set_at xs' i' v
  end.
End Arrays.

(** ** The spline interface

    [InterpolatedUnivariateSpline(x, y)] builds a spline object from the
    abscissas and the samples; the program then evaluates it or takes its
    definite integral.  The object is represented by the data it was built
    from, the two operations are those of the library in use. *)

Record spline (F : Type) : Type := InterpolatedUnivariateSpline {
  knots   : list F;
  samples : list F
}.

Record Interpolant (F : Type) : Type := {
  evaluate : spline F -> F -> F;
  integral : spline F -> F -> F -> F
}.

(** ** Conformal-time derivative *)

Section Dtauda.
Context {F : Type} `{Num F}.
Local Open Scope num_scope.

(** [dtauda_].  The assignment to [grho2] ends on its first line; the
    three lines that follow it in the source begin with [+] and are
    expression statements of their own, evaluated and dropped. *)
Definition dtauda_ (a grhom grhog grhor Omegam OmegaL Omegak Neff Nmnu : F)
           (rhonu_spline : F -> F) : F :=
  let grho2 := grhom * Omegam * a in
  let _ := grhog + grhor * (Neff + Nmnu * rhonu_spline a) in
  let _ := grhom * OmegaL * a ^ 4 in
  let _ := grhom * Omegak * a ^ 2 in
  fsqrt (lit 3 / grho2).

(** The density sum as the specification writes it. *)
Definition grho2_spec (a grhom grhog grhor Omegam OmegaL Omegak Neff Nmnu : F)
           (rhonu_spline : F -> F) : F :=
  grhom * Omegam * a
  + (grhog + grhor * (Neff + Nmnu * rhonu_spline a))
  + grhom * OmegaL * a ^ 4
  + grhom * Omegak * a ^ 2.

Definition dtauda_spec (a grhom grhog grhor Omegam OmegaL Omegak Neff Nmnu : F)
           (rhonu_spline : F -> F) : F :=
  fsqrt (lit 3 / grho2_spec a grhom grhog grhor Omegam OmegaL Omegak
                             Neff Nmnu rhonu_spline).
End Dtauda.

(** ** Neutrino moments *)

Section Neutrino.
Context {F : Type} `{Num F}.
Variable interp : Interpolant F.
Local Open Scope num_scope.

(** [const = 5.682196976983475], the literal of the source. *)
Definition const : F := lit (5682196976983475 # 1000000000000000).

(** [v = 1 / sqrt(1 + aq**2)] for one entry [aq]. *)
Definition velocity (aq : F) : F := of_Z 1 / fsqrt (of_Z 1 + aq ^ 2).

(** [ninu1].  [nq] and [qmax] are Python numbers, so [qmax / nq] raises
    on [nq = 0]. *)
Definition ninu1 (a amnu : F) (nq : nat) (qmax : F) : result (F * F) :=
  if Nat.eqb nq 0 then Err ZeroDivisionError else
  let dq   := qmax / of_nat nq in
  let q    := map (fun i => dq * of_nat i) (arange 1 (nq + 1)) in
  let aq   := map (fun qi => a * amnu / qi) q in
  let v    := map velocity aq in
  qdn  <- broadcast fdiv (map (fun qi => dq * qi ^ 3) q)
                         (map (fun qi => fexp qi + of_Z 1) q) ;;
  dum1 <- broadcast fdiv qdn v ;;
  dum2 <- broadcast fmul qdn v ;;
  let rho_spline := InterpolatedUnivariateSpline q dum1 in
  let rhonu := integral interp rho_spline (of_Z 0) qmax in
  let p_spline := InterpolatedUnivariateSpline q dum2 in
  let pnu := integral interp p_spline (of_Z 0) qmax in
  let rhonu := (rhonu / dq + last_elt dum1 / dq) / const in
  let pnu := (pnu / dq + last_elt dum2 / dq) / const / of_Z 3 in
  Ok (rhonu, pnu).

(** Both perturbation integrators run this body; [nq] is accepted and
    never read. *)
Definition nu_perturb (a amnu : F) (psi0 psi1 psi2 : list F)
           (nq : nat) (qmax : F) : result (F * F * F * F) :=
  let nqmax0 := length psi0 in
  let qmax0  := of_nat nqmax0 - lit (1 # 2) in
  let g1 := zeros (nqmax0 + 1) in
  let g2 := zeros (nqmax0 + 1) in
  let g3 := zeros (nqmax0 + 1) in
  let g4 := zeros (nqmax0 + 1) in
  let q  := map (fun i => of_nat i - lit (1 # 2)) (arange 1 (nqmax0 + 1)) in
  let qq := map of_nat (arange 0 (nqmax0 + 1)) in
  let aq := map (fun qi => a * amnu / qi) q in
  let v  := map velocity aq in
  qdn <- broadcast fdiv (map (fun qi => qi ^ 3) q)
                        (map (fun qi => fexp qi + of_Z 1) q) ;;
  g1 <- (t <- broadcast fmul qdn psi0 ;; u <- broadcast fdiv t v ;;
         set_tail g1 u) ;;
  g2 <- (t <- broadcast fmul qdn psi0 ;; u <- broadcast fmul t v ;;
         set_tail g2 u) ;;
  g3 <- (t <- broadcast fmul qdn psi1 ;; set_tail g3 t) ;;
  g4 <- (t <- broadcast fmul qdn psi2 ;; u <- broadcast fmul t v ;;
         set_tail g4 u) ;;
  let g01 := integral interp (InterpolatedUnivariateSpline qq g1)
                      (of_Z 0) qmax0 in
  let g02 := integral interp (InterpolatedUnivariateSpline qq g2)
                      (of_Z 0) qmax0 in
  let g03 := integral interp (InterpolatedUnivariateSpline qq g3)
                      (of_Z 0) qmax0 in
  let g04 := integral interp (InterpolatedUnivariateSpline qq g4)
                      (of_Z 0) qmax0 in
  let drhonu  := (g01 + last_elt g1 * of_Z 2 / qmax) / const in
  let dpnu    := (g02 + last_elt g2 * of_Z 2 / qmax) / const / of_Z 3 in
  let fnu     := (g03 + last_elt g3 * of_Z 2 / qmax) / const in
  let shearnu := (g04 + last_elt g4 * of_Z 2 / qmax) / const
                 * of_Z 2 / of_Z 3 in
  Ok (drhonu, dpnu, fnu, shearnu).

(** *** Pointwise description of the samples *)

(** Entries of [dum1] and [dum2] of [ninu1] at the momentum [qi]. *)
Definition qdn_at (dq qi : F) : F := dq * qi ^ 3 / (fexp qi + of_Z 1).
Definition dum1_at (a amnu dq qi : F) : F :=
  qdn_at dq qi / velocity (a * amnu / qi).
Definition dum2_at (a amnu dq qi : F) : F :=
  qdn_at dq qi * velocity (a * amnu / qi).

Definition ninu1_grid (nq : nat) (qmax : F) : list F :=
  map (fun i => qmax / of_nat nq * of_nat i) (arange 1 (nq + 1)).

(** The density and pressure as the specification words them: the tail
    term [dum_last / dq] is added to the integral, and the sum is then
    divided by [dq] and by [const]. *)
Definition ninu1_spec (a amnu : F) (nq : nat) (qmax : F) : F * F :=
  let dq := qmax / of_nat nq in
  let q  := ninu1_grid nq qmax in
  let d1 := map (dum1_at a amnu dq) q in
  let d2 := map (dum2_at a amnu dq) q in
  let i1 := integral interp (InterpolatedUnivariateSpline q d1)
                     (of_Z 0) qmax in
  let i2 := integral interp (InterpolatedUnivariateSpline q d2)
                     (of_Z 0) qmax in
  ((i1 + last_elt d1 / dq) / dq / const,
   (i2 + last_elt d2 / dq) / dq / const / of_Z 3).

(** What [ninu1] computes, sample by sample: each integral is divided by
    [dq], the last sample divided by [dq] is added, and the sum is divided
    by [const]; the pressure is divided by three once more. *)
Definition ninu1_formula (a amnu : F) (nq : nat) (qmax : F) : F * F :=
  let dq := qmax / of_nat nq in
  let q  := ninu1_grid nq qmax in
  let d1 := map (dum1_at a amnu dq) q in
  let d2 := map (dum2_at a amnu dq) q in
  let i1 := integral interp (InterpolatedUnivariateSpline q d1)
                     (of_Z 0) qmax in
  let i2 := integral interp (InterpolatedUnivariateSpline q d2)
                     (of_Z 0) qmax in
  ((i1 / dq + last_elt d1 / dq) / const,
   (i2 / dq + last_elt d2 / dq) / const / of_Z 3).

(** Weighted samples of [nu_perturb] at the node [qi], for one entry of
    the perturbed distribution. *)
Definition pqdn_at (qi : F) : F := qi ^ 3 / (fexp qi + of_Z 1).
Definition w1_at (a amnu qi p : F) : F :=
  pqdn_at qi * p / velocity (a * amnu / qi).
Definition w2_at (a amnu qi p : F) : F :=
  pqdn_at qi * p * velocity (a * amnu / qi).
Definition w3_at (qi p : F) : F := pqdn_at qi * p.
Definition w4_at (a amnu qi p : F) : F :=
  pqdn_at qi * p * velocity (a * amnu / qi).

Definition nodes (n : nat) : list F :=
  map (fun i => of_nat i - lit (1 # 2)) (arange 1 (n + 1)).
Definition index_grid (n : nat) : list F :=
  map of_nat (arange 0 (n + 1)).

(** One moment: integral of the spline through the padded samples over
    [0, qmax0], plus twice the last sample over [qmax], over [const]. *)
Definition moment (n : nat) (w : list F) (qmax : F) : F :=
  (integral interp (InterpolatedUnivariateSpline (index_grid n)
                                                 (lit 0 :: w))
            (of_Z 0) (of_nat n - lit (1 # 2))
   + last_elt (lit 0 :: w) * of_Z 2 / qmax) / const.

(** The four moments of [nu_perturb] for inputs of one length. *)
Definition nu_perturb_formula (a amnu : F) (psi0 psi1 psi2 : list F)
           (qmax : F) : F * F * F * F :=
  let n := length psi0 in
  (moment n (zip_with (w1_at a amnu) (nodes n) psi0) qmax,
   moment n (zip_with (w2_at a amnu) (nodes n) psi0) qmax / of_Z 3,
   moment n (zip_with w3_at (nodes n) psi1) qmax,
   moment n (zip_with (w4_at a amnu) (nodes n) psi2) qmax * of_Z 2 / of_Z 3).
End Neutrino.

(** The two integrators of the source differ in the spline library. *)
Definition nu_perturb_jax {F} `{Num F} (jaxinterp : Interpolant F) :=
  nu_perturb jaxinterp.
Definition nu_perturb_numpy {F} `{Num F} (scipyinterp : Interpolant F) :=
  nu_perturb scipyinterp.


(** ** The cosmology object *)

(** Keyword arguments of [cosmo.__init__]. *)
Record cosmo_args (F : Type) : Type := {
  arg_Omegam : F;
  arg_Omegab : F;
  arg_OmegaL : F;
  arg_H0     : F;
  arg_Tcmb   : F;
  arg_YHe    : F;
  arg_Neff   : F;
  arg_Nmnu   : Z;
  arg_mnu    : F;
  arg_rtol   : F;
  arg_atol   : F;
  arg_order  : Z
}.

(** The dictionary returned by [pylinger_thermo_jax.compute]. *)
Record thermal_history (F : Type) : Type := {
  th_tau : list F;
  th_cs2 : list F;
  th_tb  : list F;
  th_xe  : list F;
  th_a   : list F
}.

(** [self.param] once the constructor has run. *)
Record cosmo_param (F : Type) : Type := {
  Omegam  : F;
  Omegab  : F;
  OmegaL  : F;
  Omegac  : F;
  Omegak  : F;
  H0      : F;
  Tcmb    : F;
  YHe     : F;
  Neff    : F;
  Nmnu    : Z;
  mnu     : F;
  grhom   : F;
  grhog   : F;
  grhor   : F;
  adotrad : F;
  amnu    : F;
  amin    : F;
  amax    : F;
  rhonu_of_a_spline   : spline F;
  pnu_of_a_spline     : spline F;
  taumin  : F;
  taumax  : F;
  cs2_of_tau_spline   : spline F;
  tempb_of_tau_spline : spline F;
  xe_of_tau_spline    : spline F;
  a_of_tau_spline     : spline F;
  tau_of_a_spline     : spline F
}.

Section Cosmo.
Context {F : Type} `{Num F}.
Variable jaxinterp : Interpolant F.
Variable geomspace : F -> F -> nat -> list F.
Variable romb : (F -> F) -> F -> F -> F.
Variable pthermo_compute :
  F -> F -> nat -> F -> F -> F -> F -> F -> F -> F -> Z -> spline F ->
  thermal_history F.
Local Open Scope num_scope.

Definition c2ok : F := lit (162581581 # 10000).
Definition amin_const : F := lit (1 # 1000000000).
Definition amax_const : F := lit (101 # 100).
Definition num_thermo : nat := 1000.

(** One pass of the loop over the scale-factor grid: [ninu1] at [a[i]]
    with the default [nq] and [qmax], results written at index [i]. *)
Definition ninu1_step (a : list F) (amnu_ : F)
           (acc : result (list F * list F)) (i : nat)
  : result (list F * list F) :=
  st <- acc ;;
  r  <- ninu1 jaxinterp (nth i a (last_elt a)) amnu_ 1000 (lit 30) ;;
  Ok (set_at (fst st) i (fst r), set_at (snd st) i (snd r)).

Definition ninu1_table (a : list F) (amnu_ : F) : result (list F * list F) :=
  fold_left (ninu1_step a amnu_) (arange 0 num_thermo)
            (Ok (zeros (length a), zeros (length a))).

(** The integrand of the conformal-time integral, in [log a]. *)
Definition tau_integrand (grhom_ grhog_ grhor_ Omegam_ OmegaL_ Omegak_ Neff_
                          Nmnu_ : F) (rhonu_spline : spline F) (loga : F) : F :=
  fexp loga * dtauda_ (fexp loga) grhom_ grhog_ grhor_ Omegam_ OmegaL_ Omegak_
                      Neff_ Nmnu_ (evaluate jaxinterp rhonu_spline).

(** [cosmo.__init__].  The arguments are Python floats: the divisions by
    [Tcmb] (for [amnu]) and by [adotrad] (for [taumin]) raise on a zero
    divisor.  The range of the floats is not modelled: [H0 ** 2] and
    [Tcmb ** 4] are taken not to overflow. *)
Definition cosmo_init (args : cosmo_args F) : result (cosmo_param F) :=
  let Omegam_ := arg_Omegam args in
  let Omegab_ := arg_Omegab args in
  let OmegaL_ := arg_OmegaL args in
  let H0_     := arg_H0 args in
  let Tcmb_   := arg_Tcmb args in
  let YHe_    := arg_YHe args in
  let Neff_   := arg_Neff args in
  let Nmnu_   := arg_Nmnu args in
  let mnu_    := arg_mnu args in
  let amin_ := amin_const in
  let amax_ := amax_const in
  let Omegak_ := lit 0 in
  let grhom_   := lit (33379 # 1000000000000000) * H0_ ^ 2 in
  let grhog_   := lit (14952 # 100000000000000000) * Tcmb_ ^ 4 in
  let grhor_   := lit (33957 # 1000000000000000000) * Tcmb_ ^ 4 in
  let adotrad_ := lit (28948 # 100000000000) * Tcmb_ ^ 2 in
  amnu_ <- py_div (mnu_ * c2ok) Tcmb_ ;;
  let a := geomspace amin_ amax_ num_thermo in
  tab <- ninu1_table a amnu_ ;;
  let rhonu := fst tab in
  let pnu   := snd tab in
  let rhonu_spline := InterpolatedUnivariateSpline a rhonu in
  let pnu_spline   := InterpolatedUnivariateSpline a pnu in
  taumin_ <- py_div amin_ adotrad_ ;;
  let taumax_ :=
    taumin_ + romb (tau_integrand grhom_ grhog_ grhor_ Omegam_ OmegaL_ Omegak_
                                  Neff_ (of_Z Nmnu_) rhonu_spline)
                   (flog amin_) (flog amax_) in
  let th := pthermo_compute taumin_ taumax_ num_thermo Tcmb_ YHe_ H0_ Omegab_
                            Omegam_ OmegaL_ Neff_ Nmnu_ rhonu_spline in
  Ok {| Omegam := Omegam_;
        Omegab := Omegab_;
        OmegaL := OmegaL_;
        Omegac := Omegam_ - Omegab_;
        Omegak := Omegak_;
        H0 := H0_;
        Tcmb := Tcmb_;
        YHe := YHe_;
        Neff := Neff_;
        Nmnu := Nmnu_;
        mnu := mnu_;
        grhom := grhom_;
        grhog := grhog_;
        grhor := grhor_;
        adotrad := adotrad_;
        amnu := amnu_;
        amin := amin_;
        amax := amax_;
        rhonu_of_a_spline := rhonu_spline;
        pnu_of_a_spline := pnu_spline;
        taumin := taumin_;
        taumax := taumax_;
        cs2_of_tau_spline :=
          InterpolatedUnivariateSpline (th_tau th) (th_cs2 th);
        tempb_of_tau_spline :=
          InterpolatedUnivariateSpline (th_tau th) (th_tb th);
        xe_of_tau_spline :=
          InterpolatedUnivariateSpline (th_tau th) (th_xe th);
        a_of_tau_spline :=
          InterpolatedUnivariateSpline (th_tau th) (th_a th);
        tau_of_a_spline :=
          InterpolatedUnivariateSpline (th_a th) (th_tau th) |}.
End Cosmo.

(** ** A spline library for exact arithmetic

    The first-degree member of the spline family, over the reals: the
    interpolant is the polygon through the samples, continued along its
    first and last segment outside the knots. *)

Module LinearSpline.
Local Open Scope R_scope.

Record segment : Type := {
  sx0 : R; sy0 : R; sx1 : R; sy1 : R
}.

Fixpoint segments (xs ys : list R) : list segment :=
  match xs, ys with
  | x0 :: ((x1 :: _) as xs'), y0 :: ((y1 :: _) as ys') =>
      {| sx0 := x0; sy0 := y0; sx1 := x1; sy1 := y1 |} :: segments xs' ys'
  | _, _ => []
  end.

Definition line (s : segment) (x : R) : R :=
  sy0 s + (sy1 s - sy0 s) / (sx1 s - sx0 s) * (x - sx0 s).

Definition area (s : segment) (l h : R) : R :=
  (h - l) * (line s l + line s h) / 2.

Fixpoint eval_segments (segs : list segment) (x : R) : R :=
  match segs with
  | [] => 0
  | s :: rest =>
      match rest with
      | [] => line s x
      | _ :: _ => if Rle_dec x (sx1 s) then line s x else eval_segments rest x
      end
  end.

Fixpoint integrate_segments (first : bool) (segs : list segment) (lo hi : R)
  : R :=
  match segs with
  | [] => 0
  | s :: rest =>
      let l := if first then lo else Rmax lo (sx0 s) in
      let h := match rest with [] => hi | _ :: _ => Rmin hi (sx1 s) end in
      (if Rle_dec l h then area s l h else 0)
      + integrate_segments false rest lo hi
  end.

Definition linear_integral (s : spline R) (lo hi : R) : R :=
  let segs := segments (knots s) (samples s) in
  if Rle_dec lo hi then integrate_segments true segs lo hi
  else - integrate_segments true segs hi lo.

(** A segment between two zero samples. *)
Definition flat (s : segment) : Prop := sy0 s = 0 /\ sy1 s = 0.

Definition linear : Interpolant R := {|
  evaluate := fun s x => eval_segments (segments (knots s) (samples s)) x;
  integral := linear_integral
|}.
End LinearSpline.

(** A spline integral vanishes on samples that are all zero.  Every
    spline scheme is linear in its samples, so it has this property. *)
Definition integral_of_zero {F} `{Num F} (interp : Interpolant F) : Prop :=
  forall (xs : list F) (n : nat) (lo hi : F),
    integral interp (InterpolatedUnivariateSpline xs (zeros n)) lo hi = lit 0.

(** ** Notions used in the further properties *)

(** [psi] as the elementwise product sees it on a grid of [n] nodes: a
    sequence of length one stands for the constant sequence. *)
Definition stretch {F : Type} (n : nat) (psi : list F) : list F :=
  if Nat.eqb (length psi) n then psi
  else match psi with
       | [p] => repeat p n
       | _ => psi
       end.

(** A length the product with a sequence of length [n] accepts. *)
Definition compatible (n m : nat) : bool := Nat.eqb m n || Nat.eqb m 1.

Definition rmap {A B : Type} (f : A -> B) (r : result A) : result B :=
  match r with
  | Ok a  => Ok (f a)
  | Err e => Err e
  end.

(** Components of the tuple returned by the perturbation integrators. *)
Definition drhonu_of {F : Type} (r : F * F * F * F) : F :=
  let '(d, _, _, _) := r in d.
Definition dpnu_of {F : Type} (r : F * F * F * F) : F :=
  let '(_, p, _, _) := r in p.
Definition fnu_of {F : Type} (r : F * F * F * F) : F :=
  let '(_, _, f, _) := r in f.
Definition shearnu_of {F : Type} (r : F * F * F * F) : F :=
  let '(_, _, _, s) := r in s.

(** The table the loop of the constructor is expected to build: [ninu1]
    applied to every scale factor. *)
Definition ninu1_table_spec {F : Type} `{Num F} (interp : Interpolant F)
           (a : list F) (amnu_ : F) : list F * list F :=
  (map (fun ai => fst (ninu1_formula interp ai amnu_ 1000 (lit 30))) a,
   map (fun ai => snd (ninu1_formula interp ai amnu_ 1000 (lit 30))) a).

(** The two divisors of the constructor are not zero. *)
Definition Tcmb_nonzero {F : Type} `{Num F} (args : cosmo_args F) : Prop :=
  is_zero (arg_Tcmb args) = false
  /\ is_zero (fmul (lit (28948 # 100000000000)) (fpow (arg_Tcmb args) 2))
     = false.

(** ** Binary64 arithmetic

    The numbers of numpy and of Python floats, with the kernel's IEEE 754
    operations.  [exp] and [log] are not among them and stay parameters.
    A literal is the correctly rounded quotient of its numerator and
    denominator, and [x ** n] multiplies [n] times. *)
Module Binary64.
Definition float_of_Z (z : Z) : PrimFloat.float :=
  match z with
  | Z0 => PrimFloat.zero
  | Zpos _ => PrimFloat.of_uint63 (Uint63.of_Z z)
  | Zneg p => PrimFloat.opp (PrimFloat.of_uint63 (Uint63.of_Z (Zpos p)))
  end.

Fixpoint float_pow (x : PrimFloat.float) (n : nat) : PrimFloat.float :=
  match n with
  | O => PrimFloat.one
  | S n' => PrimFloat.mul x (float_pow x n')
  end.

Definition num (exp_ log_ : PrimFloat.float -> PrimFloat.float)
  : Num PrimFloat.float := {|
  lit   := fun q => PrimFloat.div (float_of_Z (Qnum q)) (float_of_Z (Zpos (Qden q)));
  of_Z  := float_of_Z;
  fadd  := PrimFloat.add;
  fsub  := PrimFloat.sub;
  fmul  := PrimFloat.mul;
  fdiv  := PrimFloat.div;
  fpow  := float_pow;
  fsqrt := PrimFloat.sqrt;
  fexp  := exp_;
  flog  := log_;
  is_zero := fun x => PrimFloat.eqb x PrimFloat.zero
|}.
End Binary64.

(** Stand-ins for the external routines, over the reals, for the worked
    instances below: a geometric grid, the two-point trapezoid, and a
    thermal history of two rows. *)
Module Example.
Local Open Scope R_scope.

Definition geomspace (lo hi : R) (n : nat) : list R :=
  map (fun i => exp (ln lo + INR i * (ln hi - ln lo) / INR (n - 1)))
      (seq 0 n).

Definition romb (f : R -> R) (lo hi : R) : R := (hi - lo) * (f lo + f hi) / 2.

Definition pthermo_compute (taumin_ taumax_ : R) (nthermo : nat)
           (Tcmb_ YHe_ H0_ Omegab_ Omegam_ OmegaL_ Neff_ : R) (Nmnu_ : Z)
           (rhonu_sp : spline R) : thermal_history R :=
  {| th_tau := [taumin_; taumax_];
     th_cs2 := [0; 0];
     th_tb  := [Tcmb_; Tcmb_];
     th_xe  := [1; 1];
     th_a   := [1 / 1000000000; 1] |}.

(** Omegam=0.3, Omegab=0.05, OmegaL=0.7, H0=67, Tcmb=2.725, YHe=0.245,
    Neff=3.046, massless neutrinos, default tolerances. *)
Definition args : cosmo_args R :=
  {| arg_Omegam := 3 / 10;
     arg_Omegab := 5 / 100;
     arg_OmegaL := 7 / 10;
     arg_H0     := 67;
     arg_Tcmb   := 2725 / 1000;
     arg_YHe    := 245 / 1000;
     arg_Neff   := 3046 / 1000;
     arg_Nmnu   := 0;
     arg_mnu    := 0;
     arg_rtol   := 1 / 100000;
     arg_atol   := 1 / 10000000;
     arg_order  := 5 |}.

(** The same matter density, Hubble rate and temperature; no dark
    energy, one massive species of 0.06 eV, other tolerances. *)
Definition args_massive : cosmo_args R :=
  {| arg_Omegam := 3 / 10;
     arg_Omegab := 4 / 100;
     arg_OmegaL := 0;
     arg_H0     := 67;
     arg_Tcmb   := 2725 / 1000;
     arg_YHe    := 24 / 100;
     arg_Neff   := 2046 / 1000;
     arg_Nmnu   := 1;
     arg_mnu    := 6 / 100;
     arg_rtol   := 1 / 1000;
     arg_atol   := 1 / 1000;
     arg_order  := 3 |}.
End Example.

(** * Properties *)

(** ** Arrays *)

Section ArrayFacts.
Context {F : Type} `{Num F}.

Lemma Ok_inj {A} (x y : A) : Ok x = Ok y -> x = y.
Proof. intros E. inversion E. reflexivity. Qed.

Lemma broadcast_same_length (f : F -> F -> F) (xs ys : list F) :
  length xs = length ys -> broadcast f xs ys = Ok (zip_with f xs ys).
Proof.
  intros E. unfold broadcast. rewrite E, Nat.eqb_refl. reflexivity.
Qed.

Lemma broadcast_mismatch (f : F -> F -> F) (xs ys : list F) :
  length xs <> length ys -> length xs <> 1%nat -> length ys <> 1%nat ->
  broadcast f xs ys = Err ShapeError.
Proof.
  intros Hne Hx Hy. unfold broadcast.
  apply Nat.eqb_neq in Hne. rewrite Hne.
  destruct xs as [|x [|x' xs]]; destruct ys as [|y [|y' ys]];
    simpl in *; congruence.
Qed.

Lemma broadcast_only_shape_error (f : F -> F -> F) (xs ys : list F) e :
  broadcast f xs ys = Err e -> e = ShapeError.
Proof.
  unfold broadcast. destruct (Nat.eqb _ _); [discriminate|].
  destruct xs as [|x [|x' xs]]; destruct ys as [|y [|y' ys]];
    intros E; inversion E; reflexivity.
Qed.

Lemma zip_with_length (f : F -> F -> F) (xs ys : list F) :
  length xs = length ys -> length (zip_with f xs ys) = length xs.
Proof.
  revert ys. induction xs as [|x xs IH]; intros [|y ys] E;
    simpl in *; try discriminate; auto.
Qed.

(** The three ways an elementwise operation succeeds. *)
Lemma broadcast_length (f : F -> F -> F) (xs ys r : list F) :
  broadcast f xs ys = Ok r ->
  (length xs = length ys /\ length r = length ys)
  \/ (length xs = 1%nat /\ length r = length ys)
  \/ (length ys = 1%nat /\ length r = length xs).
Proof.
  unfold broadcast. destruct (Nat.eqb (length xs) (length ys)) eqn:E.
  - apply Nat.eqb_eq in E. intros Hr. inversion Hr; subst. left.
    split; [exact E|]. rewrite zip_with_length; assumption.
  - destruct xs as [|x [|x' xs]]; destruct ys as [|y [|y' ys]];
      intros Hr; inversion Hr; subst; simpl;
      rewrite ?length_map; auto.
Qed.

Lemma zip_with_map_same {A} (f : F -> F -> F) (g h : A -> F) (l : list A) :
  zip_with f (map g l) (map h l) = map (fun x => f (g x) (h x)) l.
Proof.
  induction l as [|x l IH]; simpl; [reflexivity | now rewrite IH].
Qed.

Lemma zip_with_map_l (f : F -> F -> F) (g : F -> F) (qs ps : list F) :
  zip_with f (map g qs) ps = zip_with (fun q p => f (g q) p) qs ps.
Proof.
  revert ps. induction qs as [|q qs IH]; intros [|p ps]; simpl;
    try reflexivity. now rewrite IH.
Qed.

Lemma zip_with_zip_map (f g : F -> F -> F) (k : F -> F) (qs ps : list F) :
  zip_with f (zip_with g qs ps) (map k qs)
  = zip_with (fun q p => f (g q p) (k q)) qs ps.
Proof.
  revert ps. induction qs as [|q qs IH]; intros [|p ps]; simpl;
    try reflexivity. now rewrite IH.
Qed.

Lemma zip_with_repeat_r (f : F -> F -> F) (p : F) (qs : list F) :
  map (fun q => f q p) qs = zip_with f qs (repeat p (length qs)).
Proof.
  induction qs as [|q qs IH]; simpl; [reflexivity | now rewrite IH].
Qed.

Lemma set_tail_zeros (n : nat) (x : list F) :
  length x = n -> set_tail (zeros (n + 1)) x = Ok (lit 0 :: x).
Proof.
  intros E. rewrite Nat.add_1_r. unfold zeros, set_tail. simpl.
  rewrite repeat_length, E, Nat.eqb_refl. reflexivity.
Qed.

Lemma set_tail_mismatch (n : nat) (x : list F) :
  length x <> n -> length x <> 1%nat ->
  set_tail (zeros (n + 1)) x = Err ShapeError.
Proof.
  intros Hn H1. rewrite Nat.add_1_r. unfold zeros, set_tail. simpl.
  rewrite repeat_length. apply Nat.eqb_neq in Hn. rewrite Hn.
  destruct x as [|y [|y' x]]; simpl in *; congruence.
Qed.

Lemma set_tail_only_shape_error (g x : list F) e :
  set_tail g x = Err e -> e = ShapeError.
Proof.
  unfold set_tail. destruct g as [|g0 rest].
  - destruct (_ || _); intros E; inversion E; reflexivity.
  - destruct (Nat.eqb _ _); [discriminate|].
    destruct x as [|y [|y' x]]; intros E; inversion E; reflexivity.
Qed.

Lemma arange_length (lo n : nat) : length (arange lo (n + lo)) = n.
Proof. unfold arange. rewrite length_seq. lia. Qed.

Lemma last_elt_map_seq (g : nat -> F) (lo n : nat) :
  last_elt (map g (seq lo (S n))) = g (lo + n)%nat.
Proof.
  unfold last_elt. rewrite seq_S, map_app. simpl.
  now rewrite last_last.
Qed.
End ArrayFacts.

(** Length side conditions. *)
Ltac len :=
  repeat (first [ rewrite length_map | rewrite repeat_length
                | rewrite zip_with_length ]);
  try congruence; try lia.

(** ** The two integrators, unfolded *)

Section NeutrinoFacts.
Context {F : Type} `{Num F}.
Variable interp : Interpolant F.
Local Open Scope num_scope.

Lemma ninu1_unfold (a amnu : F) (nq : nat) (qmax : F) :
  (0 < nq)%nat ->
  ninu1 interp a amnu nq qmax = Ok (ninu1_formula interp a amnu nq qmax).
Proof.
  intros Hnq. unfold ninu1, ninu1_formula, ninu1_grid.
  destruct nq as [|m]; [lia|]. simpl Nat.eqb. cbv iota.
  set (dq := qmax / of_nat (S m)).
  set (idx := arange 1 (S m + 1)).
  set (q := map (fun i => dq * of_nat i) idx).
  cbv zeta.
  rewrite broadcast_same_length by (now rewrite !length_map).
  rewrite zip_with_map_same. cbn [bind].
  rewrite !map_map.
  rewrite broadcast_same_length by (now rewrite !length_map).
  rewrite broadcast_same_length by (now rewrite !length_map).
  cbn [bind].
  rewrite !zip_with_map_same.
  reflexivity.
Qed.

Lemma nu_perturb_unfold (a amnu : F) (psi0 psi1 psi2 : list F)
      (nq : nat) (qmax : F) :
  length psi1 = length psi0 -> length psi2 = length psi0 ->
  nu_perturb interp a amnu psi0 psi1 psi2 nq qmax
  = Ok (nu_perturb_formula interp a amnu psi0 psi1 psi2 qmax).
Proof.
  intros E1 E2. unfold nu_perturb, nu_perturb_formula, moment.
  remember (length psi0) as n eqn:En.
  fold (nodes n). fold (index_grid n).
  assert (Lq : length (nodes n) = n).
  { unfold nodes. rewrite length_map. apply arange_length. }
  cbv zeta.
  rewrite broadcast_same_length by (now rewrite !length_map).
  rewrite zip_with_map_same. cbn [bind].
  fold pqdn_at.
  rewrite !map_map.
  rewrite !(broadcast_same_length fmul (map pqdn_at (nodes n)))
    by (rewrite length_map; congruence).
  cbn [bind].
  rewrite !zip_with_map_l.
  rewrite !broadcast_same_length
    by (rewrite zip_with_length, ?length_map; congruence).
  cbn [bind].
  rewrite !zip_with_zip_map.
  rewrite !set_tail_zeros by (rewrite zip_with_length; congruence).
  cbn [bind].
  reflexivity.
Qed.
End NeutrinoFacts.

(** ** Mismatched lengths *)

Section Mismatch.
Context {F : Type} `{Num F}.
Variable interp : Interpolant F.
Local Open Scope num_scope.

(** The assignment [g3[1:] = qdn * psi1]. *)
Lemma product_slice_mismatch (n : nat) (qdn psi : list F) :
  length qdn = n -> length psi <> n -> length psi <> 1%nat ->
  (t <- broadcast fmul qdn psi ;; set_tail (zeros (n + 1)) t)
  = Err ShapeError.
Proof.
  intros Lq Hn H1.
  destruct (broadcast fmul qdn psi) as [t|e] eqn:B; cbn [bind].
  - apply set_tail_mismatch;
      destruct (broadcast_length _ _ _ B) as [[? ?]|[[? ?]|[? ?]]]; lia.
  - f_equal. eapply broadcast_only_shape_error; eassumption.
Qed.

Lemma product_slice_errors (g qdn psi : list F) e :
  (t <- broadcast fmul qdn psi ;; set_tail g t) = Err e -> e = ShapeError.
Proof.
  destruct (broadcast fmul qdn psi) as [t|e'] eqn:B; cbn [bind].
  - apply set_tail_only_shape_error.
  - intros E. inversion E; subst.
    eapply broadcast_only_shape_error; eassumption.
Qed.

(** The assignment [g4[1:] = qdn * psi2 * v]. *)
Lemma product_velocity_slice_mismatch (n : nat) (qdn v psi : list F) :
  length qdn = n -> length v = n -> length psi <> n -> length psi <> 1%nat ->
  (t <- broadcast fmul qdn psi ;; u <- broadcast fmul t v ;;
   set_tail (zeros (n + 1)) u) = Err ShapeError.
Proof.
  intros Lq Lv Hn H1.
  destruct (broadcast fmul qdn psi) as [t|e] eqn:B; cbn [bind].
  - assert (Lt : length t = length psi)
      by (destruct (broadcast_length _ _ _ B) as [[? ?]|[[? ?]|[? ?]]]; lia).
    destruct (broadcast fmul t v) as [u|e] eqn:B'; cbn [bind].
    + apply set_tail_mismatch;
        destruct (broadcast_length _ _ _ B') as [[? ?]|[[? ?]|[? ?]]]; lia.
    + f_equal. eapply broadcast_only_shape_error; eassumption.
  - f_equal. eapply broadcast_only_shape_error; eassumption.
Qed.

Lemma nu_perturb_mismatch (a amnu : F) (psi0 psi1 psi2 : list F)
      (nq : nat) (qmax : F) :
  (length psi1 <> length psi0 /\ length psi1 <> 1%nat)
  \/ (length psi2 <> length psi0 /\ length psi2 <> 1%nat) ->
  nu_perturb interp a amnu psi0 psi1 psi2 nq qmax = Err ShapeError.
Proof.
  intros Hbad. unfold nu_perturb.
  remember (length psi0) as n eqn:En.
  fold (nodes n).
  assert (Lq : length (nodes n) = n).
  { unfold nodes. rewrite length_map. apply arange_length. }
  cbv zeta.
  rewrite broadcast_same_length by (now rewrite !length_map).
  rewrite zip_with_map_same. cbn [bind].
  rewrite !map_map.
  set (qdn := map _ (nodes n)).
  set (v := map _ (nodes n)).
  assert (Lqdn : length qdn = n) by (unfold qdn; now rewrite length_map).
  assert (Lv : length v = n) by (unfold v; now rewrite length_map).
  rewrite !(broadcast_same_length fmul qdn psi0) by congruence.
  cbn [bind].
  rewrite !broadcast_same_length by (rewrite zip_with_length; congruence).
  cbn [bind].
  rewrite !set_tail_zeros by len.
  cbn [bind].
  destruct Hbad as [[Hn H1]|[Hn H1]].
  - rewrite product_slice_mismatch by assumption. reflexivity.
  - destruct (t <- broadcast fmul qdn psi1 ;; set_tail (zeros (n + 1)) t)
      as [g3|e] eqn:G3; cbn [bind].
    + rewrite product_velocity_slice_mismatch by assumption. reflexivity.
    + f_equal. eapply product_slice_errors; eassumption.
Qed.

Lemma bind_err {A B} (m : result A) (k : A -> result B) e :
  bind m k = Err e -> m = Err e \/ exists x, m = Ok x /\ k x = Err e.
Proof.
  destruct m as [x|e']; cbn [bind]; intros E.
  - right. now exists x.
  - left. inversion E. reflexivity.
Qed.

(** Shape errors are the only failures of either integrator: no call
    ends in [InvalidArgument]. *)
Lemma nu_perturb_only_shape_error (a amnu : F) (psi0 psi1 psi2 : list F)
      (nq : nat) (qmax : F) e :
  nu_perturb interp a amnu psi0 psi1 psi2 nq qmax = Err e -> e = ShapeError.
Proof.
  unfold nu_perturb. cbv zeta. intros E.
  repeat match goal with
         | E : bind _ _ = Err _ |- _ =>
             apply bind_err in E; destruct E as [E|(? & _ & E)]
         | E : broadcast _ _ _ = Err _ |- _ =>
             exact (broadcast_only_shape_error _ _ _ E)
         | E : set_tail _ _ = Err _ |- _ =>
             exact (set_tail_only_shape_error _ _ E)
         | E : Ok _ = Err _ |- _ => discriminate E
         end.
Qed.

(** A [psi1] of length one is stretched over the grid. *)
Lemma nu_perturb_broadcast_psi1 (a amnu : F) (psi0 psi2 : list F) (p : F)
      (nq : nat) (qmax : F) :
  length psi2 = length psi0 -> length psi0 <> 1%nat ->
  nu_perturb interp a amnu psi0 [p] psi2 nq qmax
  = Ok (nu_perturb_formula interp a amnu psi0
          (repeat p (length psi0)) psi2 qmax).
Proof.
  intros E2 Hn1.
  rewrite <- (nu_perturb_unfold interp a amnu psi0
                (repeat p (length psi0)) psi2 nq qmax)
    by (rewrite ?repeat_length; congruence).
  unfold nu_perturb.
  remember (length psi0) as n eqn:En.
  assert (B : forall qdn : list F, length qdn = n ->
            broadcast fmul qdn [p] = broadcast fmul qdn (repeat p n)).
  { intros qdn Lq. rewrite (broadcast_same_length fmul qdn (repeat p n))
      by (rewrite repeat_length; exact Lq).
    rewrite <- Lq, <- zip_with_repeat_r.
    unfold broadcast. simpl length.
    destruct (Nat.eqb (length qdn) 1) eqn:E1.
    - apply Nat.eqb_eq in E1. congruence.
    - destruct qdn as [|x [|x' qdn]]; simpl in *; congruence. }
  cbv zeta.
  rewrite broadcast_same_length by (now rewrite !length_map).
  cbn [bind].
  rewrite (B (zip_with fdiv _ _)); [reflexivity|].
  rewrite zip_with_length by (now rewrite !length_map).
  rewrite !length_map. apply (arange_length 1 n).
Qed.
End Mismatch.

(** ** The constructor runs to completion *)

Section CosmoFacts.
Context {F : Type} `{Num F}.
Variable jaxinterp : Interpolant F.
Variable geomspace : F -> F -> nat -> list F.
Variable romb : (F -> F) -> F -> F -> F.
Variable pthermo_compute :
  F -> F -> nat -> F -> F -> F -> F -> F -> F -> F -> Z -> spline F ->
  thermal_history F.
Local Open Scope num_scope.

(** The call made in the loop, with the default grid, returns. *)
Lemma ninu1_default (a amnu_ : F) :
  ninu1 jaxinterp a amnu_ 1000 (lit 30)
  = Ok (ninu1_formula jaxinterp a amnu_ 1000 (lit 30)).
Proof. apply ninu1_unfold. apply Nat.lt_0_succ. Qed.

Lemma ninu1_step_ok (a : list F) (amnu_ : F) st (i : nat) :
  exists st', ninu1_step jaxinterp a amnu_ (Ok st) i = Ok st'.
Proof.
  unfold ninu1_step. rewrite ninu1_default. eexists. reflexivity.
Qed.

Lemma ninu1_loop_ok (a : list F) (amnu_ : F) (idx : list nat) :
  forall st, exists tab,
    fold_left (ninu1_step jaxinterp a amnu_) idx (Ok st) = Ok tab.
Proof.
  induction idx as [|i idx IH]; intros st; cbn [fold_left].
  - now exists st.
  - destruct (ninu1_step_ok a amnu_ st i) as [st' E]. rewrite E. apply IH.
Qed.

Lemma ninu1_table_ok (a : list F) (amnu_ : F) :
  exists tab, ninu1_table jaxinterp a amnu_ = Ok tab.
Proof. unfold ninu1_table. apply ninu1_loop_ok. Qed.

Lemma cosmo_init_zero_Tcmb (args : cosmo_args F) :
  is_zero (arg_Tcmb args) = true ->
  cosmo_init jaxinterp geomspace romb pthermo_compute args
  = Err ZeroDivisionError.
Proof.
  intros Z. unfold cosmo_init, py_div. cbv zeta. rewrite Z. reflexivity.
Qed.

Lemma cosmo_init_zero_adotrad (args : cosmo_args F) :
  is_zero (arg_Tcmb args) = false ->
  is_zero (lit (28948 # 100000000000) * arg_Tcmb args ^ 2) = true ->
  cosmo_init jaxinterp geomspace romb pthermo_compute args
  = Err ZeroDivisionError.
Proof.
  intros Z A.
  destruct (ninu1_table_ok (geomspace amin_const amax_const num_thermo)
                           (arg_mnu args * c2ok / arg_Tcmb args))
    as [tab Htab].
  unfold cosmo_init, py_div. cbv zeta. rewrite Z. cbn [bind].
  rewrite Htab. cbn [bind]. rewrite A. reflexivity.
Qed.

Lemma cosmo_init_ok (args : cosmo_args F) :
  Tcmb_nonzero args ->
  exists tab,
    ninu1_table jaxinterp (geomspace amin_const amax_const num_thermo)
                (arg_mnu args * c2ok / arg_Tcmb args) = Ok tab
    /\ exists p,
      cosmo_init jaxinterp geomspace romb pthermo_compute args = Ok p
      /\ Omegak p = lit 0
      /\ Omegam p = arg_Omegam args /\ OmegaL p = arg_OmegaL args
      /\ amin p = amin_const /\ amax p = amax_const
      /\ adotrad p = lit (28948 # 100000000000) * arg_Tcmb args ^ 2
      /\ rhonu_of_a_spline p
         = InterpolatedUnivariateSpline
             (geomspace amin_const amax_const num_thermo) (fst tab)
      /\ taumin p = amin p / adotrad p
      /\ taumax p
         = taumin p
           + romb (fun loga =>
                     fexp loga
                     * dtauda_ (fexp loga) (grhom p) (grhog p) (grhor p)
                               (Omegam p) (OmegaL p) (Omegak p) (Neff p)
                               (of_Z (Nmnu p))
                               (evaluate jaxinterp (rhonu_of_a_spline p)))
                  (flog (amin p)) (flog (amax p)).
Proof.
  intros [Z A].
  destruct (ninu1_table_ok (geomspace amin_const amax_const num_thermo)
                           (arg_mnu args * c2ok / arg_Tcmb args))
    as [tab Htab].
  exists tab. split; [exact Htab|].
  unfold cosmo_init, py_div. cbv zeta. rewrite Z. cbn [bind].
  rewrite Htab. cbn [bind]. rewrite A. cbn [bind].
  eexists. split; [reflexivity|].
  cbn [Omegak amin amax adotrad rhonu_of_a_spline taumin taumax grhom grhog
       grhor Omegam OmegaL Neff Nmnu].
  repeat split.
Qed.

(** A construction that returned went through both divisions. *)
Lemma cosmo_init_inv (args : cosmo_args F) (p : cosmo_param F) :
  cosmo_init jaxinterp geomspace romb pthermo_compute args = Ok p ->
  Tcmb_nonzero args.
Proof.
  intros Hp. unfold Tcmb_nonzero.
  destruct (is_zero (arg_Tcmb args)) eqn:Z.
  - rewrite cosmo_init_zero_Tcmb in Hp by exact Z. discriminate Hp.
  - destruct (is_zero (lit (28948 # 100000000000) * arg_Tcmb args ^ 2))
      eqn:A.
    + rewrite cosmo_init_zero_adotrad in Hp by assumption. discriminate Hp.
    + now split.
Qed.
End CosmoFacts.

(** ** Exact arithmetic *)

(** Unfolds the operations of [R_Num] to those of [R]. *)
Ltac to_R :=
  cbv beta iota delta [lit of_Z of_nat fadd fsub fmul fdiv fpow fsqrt fexp
                       flog R_Num] in *.

Section RealFacts.
Local Open Scope R_scope.

Lemma Q2R_zero : Q2R 0 = 0.
Proof. unfold Q2R. simpl. lra. Qed.

Lemma Q2R_int (z : Z) : Q2R (z # 1) = IZR z.
Proof. unfold Q2R. simpl. lra. Qed.

Lemma const_pos : 0 < @const R _.
Proof.
  unfold const. to_R. unfold Q2R. simpl Qnum. simpl Qden.
  apply Rdiv_lt_0_compat; apply IZR_lt; reflexivity.
Qed.

Lemma zeros_R (n : nat) : @zeros R _ n = repeat 0 n.
Proof. unfold zeros. to_R. now rewrite Q2R_zero. Qed.

Lemma last_elt_repeat (x : R) (n : nat) : last_elt (repeat x (S n)) = x.
Proof.
  unfold last_elt. induction n as [|n IH]; [reflexivity|].
  change (repeat x (S (S n))) with (x :: repeat x (S n)).
  simpl last. simpl in IH. exact IH.
Qed.

Lemma velocity_pos (aq : R) : 0 < velocity aq.
Proof.
  unfold velocity. to_R.
  apply Rdiv_lt_0_compat; [lra|].
  apply sqrt_lt_R0. simpl. nra.
Qed.

Lemma velocity_massless : velocity 0 = 1.
Proof.
  unfold velocity. to_R. simpl pow.
  replace (1 + 0 * (0 * 1)) with 1 by ring.
  rewrite sqrt_1. field.
Qed.

Lemma qdn_at_pos (dq qi : R) : 0 < dq -> 0 < qi -> 0 < qdn_at dq qi.
Proof.
  intros Hdq Hq. unfold qdn_at. to_R.
  apply Rdiv_lt_0_compat.
  - apply Rmult_lt_0_compat; [exact Hdq|]. apply pow_lt. exact Hq.
  - pose proof (exp_pos qi). lra.
Qed.

Lemma dum1_at_pos (a amnu_ dq qi : R) :
  0 < dq -> 0 < qi -> 0 < dum1_at a amnu_ dq qi.
Proof.
  intros Hdq Hq. unfold dum1_at.
  change (@fdiv R R_Num) with Rdiv.
  apply Rdiv_lt_0_compat; [now apply qdn_at_pos | apply velocity_pos].
Qed.

(** Each density sample grows with the mass parameter. *)
Lemma dum1_at_monotone (a m1 m2 dq qi : R) :
  0 <= a -> 0 <= m1 <= m2 -> 0 < dq -> 0 < qi ->
  dum1_at a m1 dq qi <= dum1_at a m2 dq qi.
Proof.
  intros Ha [Hm1 Hm] Hdq Hq. unfold dum1_at.
  pose proof (qdn_at_pos Hdq Hq) as Hqdn.
  change (@fdiv R R_Num) with Rdiv. change (@fmul R R_Num) with Rmult.
  assert (V : forall x, qdn_at dq qi / velocity x
                        = qdn_at dq qi * sqrt (1 + x ^ 2)).
  { intros x. unfold velocity. to_R.
    assert (0 < sqrt (1 + x ^ 2)) by (apply sqrt_lt_R0; simpl; nra).
    field. lra. }
  rewrite !V. apply Rmult_le_compat_l; [lra|].
  apply sqrt_le_1_alt.
  assert (X1 : 0 <= a * m1 / qi).
  { apply Rmult_le_pos; [nra|]. left. now apply Rinv_0_lt_compat. }
  assert (X : a * m1 / qi <= a * m2 / qi).
  { apply Rmult_le_compat_r; [left; now apply Rinv_0_lt_compat | nra]. }
  simpl. nra.
Qed.

(** The tail term of the specification and that of the code are equal
    only on a grid of unit spacing. *)
Lemma tail_forms_differ (i L dq c : R) :
  L <> 0 -> dq <> 0 -> dq <> 1 -> c <> 0 ->
  (i / dq + L / dq) / c <> (i + L / dq) / dq / c.
Proof.
  intros HL Hdq Hdq1 Hc E.
  assert (D : (i / dq + L / dq) / c - (i + L / dq) / dq / c
              = L * (dq - 1) * / (dq * dq * c)) by (field; auto).
  rewrite E in D. rewrite Rminus_diag in D. symmetry in D.
  apply Rmult_integral in D. destruct D as [D|D].
  - apply Rmult_integral in D. destruct D as [D|D]; [auto | lra].
  - revert D. apply Rinv_neq_0_compat.
    repeat apply Rmult_integral_contrapositive_currified; assumption.
Qed.

(** With zero mass the scale factor drops out of [ninu1]. *)
Lemma ninu1_massless_scale_free (interp : Interpolant R) (a a' : R)
      (nq : nat) (qmax : R) :
  ninu1 interp a 0 nq qmax = ninu1 interp a' 0 nq qmax.
Proof.
  unfold ninu1. destruct (Nat.eqb nq 0); [reflexivity|]. cbv zeta.
  set (q := map _ (arange 1 (nq + 1))).
  assert (E : map (fun qi => fdiv (fmul a 0) qi) q
              = map (fun qi => fdiv (fmul a' 0) qi) q).
  { apply map_ext. intros qi. to_R. unfold Rdiv. ring. }
  rewrite E. reflexivity.
Qed.

(** With zero mass the pressure is one third of the density. *)
Lemma ninu1_massless_pressure (interp : Interpolant R) (a : R)
      (nq : nat) (qmax : R) :
  (0 < nq)%nat ->
  exists rho, ninu1 interp a 0 nq qmax = Ok (rho, rho / 3).
Proof.
  intros Hnq. rewrite ninu1_unfold by exact Hnq.
  unfold ninu1_formula. cbv zeta.
  set (dq := fdiv qmax (of_nat nq)).
  set (q := ninu1_grid nq qmax).
  assert (E : map (dum2_at a 0 dq) q = map (dum1_at a 0 dq) q).
  { apply map_ext. intros qi. unfold dum1_at, dum2_at.
    replace (fdiv (fmul a 0) qi) with 0 by (to_R; unfold Rdiv; ring).
    rewrite velocity_massless. to_R. field. }
  rewrite E. eexists. reflexivity.
Qed.
End RealFacts.

(** ** The polygon spline integrates zero samples to zero *)

Section LinearSplineFacts.
Import LinearSpline.
Local Open Scope R_scope.

Lemma segments_flat (xs ys : list R) :
  Forall (fun y => y = 0) ys -> Forall flat (segments xs ys).
Proof.
  revert ys. induction xs as [|x0 xs IH]; intros ys Hys; [constructor|].
  destruct xs as [|x1 xs]; [destruct ys; constructor|].
  destruct ys as [|y0 ys]; [constructor|].
  destruct ys as [|y1 ys]; [constructor|].
  change (segments (x0 :: x1 :: xs) (y0 :: y1 :: ys))
    with ({| sx0 := x0; sy0 := y0; sx1 := x1; sy1 := y1 |}
          :: segments (x1 :: xs) (y1 :: ys)).
  inversion Hys as [|? ? Hy0 Hrest]; subst.
  constructor.
  - inversion Hrest; subst. split; reflexivity.
  - apply IH. exact Hrest.
Qed.

Lemma area_flat (s : segment) (l h : R) : flat s -> area s l h = 0.
Proof.
  intros [E0 E1]. unfold area, line. rewrite E0, E1. unfold Rdiv. ring.
Qed.

Lemma integrate_flat (segs : list segment) :
  Forall flat segs ->
  forall first lo hi, integrate_segments first segs lo hi = 0.
Proof.
  induction 1 as [|s rest Hs Hrest IH]; intros first lo hi;
    [reflexivity|].
  cbn [integrate_segments]. cbv zeta.
  rewrite IH. destruct (Rle_dec _ _); [rewrite area_flat by exact Hs|]; ring.
Qed.

Lemma linear_integral_of_zero : integral_of_zero linear.
Proof.
  intros xs n lo hi. cbn [integral linear].
  unfold linear_integral. cbn [knots samples].
  assert (Z : Forall flat (segments xs (zeros n))).
  { apply segments_flat. rewrite zeros_R. apply Forall_forall.
    intros y Hy. now apply repeat_spec in Hy. }
  change (@lit R R_Num 0) with (Q2R 0). rewrite Q2R_zero.
  destruct (Rle_dec lo hi); rewrite (integrate_flat Z); ring.
Qed.
End LinearSplineFacts.

(** ** All-zero perturbations *)

Section ZeroPerturbation.
Local Open Scope R_scope.
Variable interp : Interpolant R.
Hypothesis interp_zero : integral_of_zero interp.

Lemma zip_with_zeros (f : R -> R -> R) (qs : list R) (n : nat) :
  (forall q, f q 0 = 0) -> length qs = n ->
  zip_with f qs (repeat 0 n) = repeat 0 n.
Proof.
  intros Hf. revert n. induction qs as [|q qs IH]; intros [|n] L;
    simpl in *; try discriminate; [reflexivity|].
  rewrite Hf, IH by congruence. reflexivity.
Qed.

Lemma moment_zeros (n : nat) (qmax : R) :
  moment interp n (repeat 0 n) qmax = 0.
Proof.
  unfold moment.
  change (@lit R R_Num 0 :: repeat 0 n) with (Q2R 0 :: repeat 0 n).
  rewrite Q2R_zero.
  change (0 :: repeat 0 n) with (repeat 0 (S n)).
  rewrite last_elt_repeat, <- zeros_R, interp_zero.
  to_R. rewrite Q2R_zero. unfold Rdiv. ring.
Qed.

Lemma nu_perturb_zeros (a amnu_ : R) (n nq : nat) (qmax : R) :
  nu_perturb interp a amnu_ (zeros n) (zeros n) (zeros n) nq qmax
  = Ok (0, 0, 0, 0).
Proof.
  rewrite nu_perturb_unfold by reflexivity.
  unfold nu_perturb_formula. cbv zeta.
  assert (Ln : length (@zeros R _ n) = n) by apply repeat_length.
  rewrite Ln, zeros_R.
  assert (Lq : length (@nodes R _ n) = n).
  { unfold nodes. rewrite length_map. apply (arange_length 1 n). }
  rewrite !zip_with_zeros; try exact Lq;
    try (intros q; unfold w1_at, w2_at, w3_at, w4_at; to_R;
         unfold Rdiv; ring).
  rewrite moment_zeros. to_R.
  replace (0 / 3) with 0 by (unfold Rdiv; ring).
  replace (0 * 2 / 3) with 0 by (unfold Rdiv; ring).
  reflexivity.
Qed.
End ZeroPerturbation.

(** * The claims *)

Section Claims.
Local Open Scope R_scope.

(** ** Conformal-time derivative *)

(** Whatever the number type, [dtauda_] reads only [a], [grhom] and
    [Omegam]. *)
Lemma dtauda_reads_matter_only {F} `{Num F}
      (a grhom_ Omegam_ g1 r1 L1 k1 e1 n1 g2 r2 L2 k2 e2 n2 : F)
      (s1 s2 : F -> F) :
  dtauda_ a grhom_ g1 r1 Omegam_ L1 k1 e1 n1 s1
  = dtauda_ a grhom_ g2 r2 Omegam_ L2 k2 e2 n2 s2.
Proof. reflexivity. Qed.

(** C1, evaluated where it fails.  At [a = 1], [grhom = 1], [grhog = 1],
    [Omegam = 1] and every other density zero, the five-term sum is 2 and
    the specification asks for [sqrt (3/2)]; [dtauda_] returns [sqrt 3],
    the value for the matter term alone. *)
Theorem dtauda_drops_terms :
  dtauda_ (F:=R) 1 1 1 0 1 0 0 0 0 (fun _ => 0) = sqrt 3
  /\ dtauda_spec (F:=R) 1 1 1 0 1 0 0 0 0 (fun _ => 0) = sqrt (3 / 2)
  /\ dtauda_ (F:=R) 1 1 1 0 1 0 0 0 0 (fun _ => 0)
     <> dtauda_spec (F:=R) 1 1 1 0 1 0 0 0 0 (fun _ => 0).
Proof.
  assert (E1 : dtauda_ (F:=R) 1 1 1 0 1 0 0 0 0 (fun _ => 0) = sqrt 3).
  { unfold dtauda_. to_R. rewrite Q2R_int. f_equal. field. }
  assert (E2 : dtauda_spec (F:=R) 1 1 1 0 1 0 0 0 0 (fun _ => 0)
               = sqrt (3 / 2)).
  { unfold dtauda_spec, grho2_spec. to_R. rewrite Q2R_int. f_equal.
    simpl. field. }
  repeat split; try assumption.
  rewrite E1, E2. intros E. apply sqrt_inj in E; lra.
Qed.

(** ** Momentum quadrature *)

Lemma last_elt_ninu1_grid {F} `{Num F} (f : F -> F) (nq : nat) (qmax : F) :
  (0 < nq)%nat ->
  last_elt (map f (ninu1_grid nq qmax))
  = f (fmul (fdiv qmax (of_nat nq)) (of_nat nq)).
Proof.
  intros Hnq. destruct nq as [|m]; [lia|].
  unfold ninu1_grid, arange. rewrite Nat.add_sub, map_map.
  rewrite last_elt_map_seq. reflexivity.
Qed.



Lemma ninu1_last_sample_pos (a amnu_ : R) (nq : nat) (qmax : R) :
  (0 < nq)%nat -> 0 < qmax ->
  0 < last_elt (map (dum1_at a amnu_ (fdiv qmax (of_nat nq)))
                    (ninu1_grid nq qmax)).
Proof.
  intros Hnq Hq. destruct nq as [|m]; [lia|].
  unfold ninu1_grid, arange.
  replace (S m + 1 - 1)%nat with (S m) by lia.
  rewrite map_map, last_elt_map_seq.
  assert (P : forall k, 0 < @of_nat R _ (S k)).
  { intros k. unfold of_nat. to_R. rewrite <- INR_IZR_INZ.
    apply lt_0_INR. lia. }
  assert (D : 0 < fdiv qmax (of_nat (S m))).
  { to_R. apply Rdiv_lt_0_compat; [exact Hq | apply P]. }
  apply dum1_at_pos; [exact D|].
  change (@fmul R R_Num) with Rmult.
  apply Rmult_lt_0_compat; [exact D | apply (P m)].
Qed.

(** On a grid whose spacing is not one, the wording of the specification
    and the code give different densities. *)
Lemma ninu1_formula_differs_from_spec (interp : Interpolant R)
      (a amnu_ : R) (nq : nat) (qmax : R) :
  (0 < nq)%nat -> 0 < qmax -> qmax / of_nat nq <> 1 ->
  fst (ninu1_formula interp a amnu_ nq qmax)
  <> fst (ninu1_spec interp a amnu_ nq qmax).
Proof.
  intros Hnq Hq Hdq.
  pose proof (ninu1_last_sample_pos a amnu_ Hnq Hq) as L.
  unfold ninu1_formula, ninu1_spec. cbv zeta. cbn [fst].
  change (@fdiv R R_Num) with Rdiv in *.
  change (@fadd R R_Num) with Rplus in *.
  assert (D : 0 < qmax / of_nat nq).
  { apply Rdiv_lt_0_compat; [exact Hq|]. unfold of_nat. to_R.
    rewrite <- INR_IZR_INZ. apply lt_0_INR. exact Hnq. }
  pose proof const_pos.
  apply tail_forms_differ; lra.
Qed.


(** ** Perturbation moments *)

Lemma zip_with_combine {F} `{Num F} (w : F -> F -> F) (qs ps : list F) :
  zip_with w qs ps = map (fun qp => w (fst qp) (snd qp)) (combine qs ps).
Proof.
  revert ps. induction qs as [|q qs IH]; intros [|p ps]; simpl;
    try reflexivity. now rewrite IH.
Qed.

Lemma last_zip_with {F} `{Num F} (w : F -> F -> F) (qs ps : list F)
      (d dq dp : F) :
  length qs = length ps -> (0 < length qs)%nat ->
  last (zip_with w qs ps) d = w (last qs dq) (last ps dp).
Proof.
  revert ps. induction qs as [|q qs IH]; intros [|p ps] L Hn;
    simpl in L, Hn; try discriminate; try lia.
  destruct qs as [|q' qs]; destruct ps as [|p' ps]; try discriminate.
  - reflexivity.
  - change (zip_with w (q :: q' :: qs) (p :: p' :: ps))
      with (w q p :: w q' p' :: zip_with w qs ps).
    change (last (w q p :: w q' p' :: zip_with w qs ps) d)
      with (last (zip_with w (q' :: qs) (p' :: ps)) d).
    rewrite IH by (simpl in *; lia). reflexivity.
Qed.

Lemma last_nodes {F} `{Num F} (n : nat) (d : F) :
  (0 < n)%nat -> last (nodes n) d = fsub (of_nat n) (lit (1 # 2)).
Proof.
  intros Hn. destruct n as [|m]; [lia|].
  unfold nodes, arange. rewrite Nat.add_sub, seq_S, map_app.
  simpl map. now rewrite last_last.
Qed.

Lemma last_elt_padded {F} `{Num F} (w : F -> F -> F) (n : nat)
      (psi : list F) :
  length psi = n -> (0 < n)%nat ->
  last_elt (lit 0 :: zip_with w (nodes n) psi)
  = w (fsub (of_nat n) (lit (1 # 2))) (last psi (lit 0)).
Proof.
  intros L Hn.
  assert (Lq : length (nodes n) = n).
  { unfold nodes. rewrite length_map. apply (arange_length 1 n). }
  assert (Lz : (0 < length (zip_with w (nodes n) psi))%nat)
    by (rewrite zip_with_length; lia).
  unfold last_elt.
  destruct (zip_with w (nodes n) psi) as [|x xs] eqn:Z;
    [simpl in Lz; lia|].
  change (last (lit 0 :: x :: xs) (lit 0)) with (last (x :: xs) (lit 0)).
  rewrite <- Z.
  rewrite (last_zip_with w (nodes n) psi (lit 0) (lit 0) (lit 0)) by lia.
  now rewrite last_nodes.
Qed.



(** C4, as the code has it.  Neither integrator checks lengths.  When
    [psi1] or [psi2] has a length that is neither that of [psi0] nor one,
    the elementwise product (or the slice assignment after it) fails with
    the array library's shape error, and no value is returned. *)
Theorem nu_perturb_length_mismatch {F} `{Num F} (interp : Interpolant F)
        (a amnu_ : F) (psi0 psi1 psi2 : list F) (nq : nat) (qmax : F) :
  (length psi1 <> length psi0 /\ length psi1 <> 1%nat)
  \/ (length psi2 <> length psi0 /\ length psi2 <> 1%nat) ->
  nu_perturb_jax interp a amnu_ psi0 psi1 psi2 nq qmax = Err ShapeError
  /\ nu_perturb_numpy interp a amnu_ psi0 psi1 psi2 nq qmax = Err ShapeError.
Proof.
  intros Hbad. unfold nu_perturb_jax, nu_perturb_numpy.
  rewrite nu_perturb_mismatch by exact Hbad. split; reflexivity.
Qed.

(** [psi0] of length 10 with [psi1] of length 9. *)
Lemma nu_perturb_length_mismatch_witness :
  nu_perturb_jax LinearSpline.linear 1 1 (repeat 0 10) (repeat 0 9)
                 (repeat 0 10) 1000 (lit 30) = Err ShapeError.
Proof.
  apply (@nu_perturb_length_mismatch R _ LinearSpline.linear 1 1
           (repeat 0 10) (repeat 0 9) (repeat 0 10) 1000 (lit 30)).
  left. split; simpl; lia.
Defined.

(** C4, as worded, fails: a [psi1] of length one beside a [psi0] of length
    ten is stretched over the grid and a value comes back. *)
Lemma nu_perturb_broadcasts_length_one :
  length [0] <> length (repeat 0 10)
  /\ is_ok (nu_perturb_jax LinearSpline.linear 1 1 (repeat 0 10) [0]
                           (repeat 0 10) 1000 (lit 30)) = true
  /\ nu_perturb_jax LinearSpline.linear 1 1 (repeat 0 10) [0]
                    (repeat 0 10) 1000 (lit 30)
     <> Err InvalidArgument.
Proof.
  assert (E : nu_perturb_jax LinearSpline.linear 1 1 (repeat 0 10) [0]
                             (repeat 0 10) 1000 (lit 30)
              = Ok (nu_perturb_formula LinearSpline.linear 1 1 (repeat 0 10)
                      (repeat 0 (length (repeat 0 10))) (repeat 0 10)
                      (lit 30))).
  { unfold nu_perturb_jax. apply nu_perturb_broadcast_psi1.
    - reflexivity.
    - simpl. lia. }
  split; [simpl; lia|]. rewrite E. split; [reflexivity | discriminate].
Qed.



(** Two facts of IEEE 754 arithmetic: zero over zero is not a number,
    whatever was multiplied by the zero, and a sum with it is not a number
    either. *)
Lemma binary64_mul_zero_div_zero (x : PrimFloat.float) :
  PrimFloat.div (PrimFloat.mul x PrimFloat.zero) PrimFloat.zero
  = PrimFloat.nan.
Proof.
  apply FloatAxioms.Prim2SF_inj.
  rewrite FloatAxioms.div_spec, FloatAxioms.mul_spec.
  destruct (FloatOps.Prim2SF x) as [sx|sx| |sx mx ex]; reflexivity.
Qed.

Lemma binary64_add_nan (x y : PrimFloat.float) :
  PrimFloat.is_nan y = true -> PrimFloat.is_nan (PrimFloat.add x y) = true.
Proof.
  unfold PrimFloat.is_nan. rewrite !FloatAxioms.eqb_spec.
  rewrite FloatAxioms.add_spec.
  destruct (FloatOps.Prim2SF y) as [sy|sy| |sy my ey] eqn:Y; intros N;
    try (destruct (FloatOps.Prim2SF x); reflexivity).
  - destruct sy; discriminate N.
  - destruct sy; discriminate N.
  - exfalso. revert N. unfold SpecFloat.SFeqb, SpecFloat.SFcompare.
    destruct sy; rewrite ?Z.compare_refl, ?Pos.compare_cont_refl,
      ?Pos.compare_refl; discriminate.
Qed.

Lemma binary64_mul_nan (x y : PrimFloat.float) :
  PrimFloat.is_nan x = true -> PrimFloat.is_nan (PrimFloat.mul x y) = true.
Proof.
  unfold PrimFloat.is_nan. rewrite !FloatAxioms.eqb_spec.
  rewrite FloatAxioms.mul_spec.
  destruct (FloatOps.Prim2SF x) as [sx|sx| |sx mx ex] eqn:X; intros N;
    try reflexivity.
  - destruct sx; discriminate N.
  - destruct sx; discriminate N.
  - exfalso. revert N. unfold SpecFloat.SFeqb, SpecFloat.SFcompare.
    destruct sx; rewrite ?Z.compare_refl, ?Pos.compare_cont_refl,
      ?Pos.compare_refl; discriminate.
Qed.

Lemma binary64_div_nan (x y : PrimFloat.float) :
  PrimFloat.is_nan x = true -> PrimFloat.is_nan (PrimFloat.div x y) = true.
Proof.
  unfold PrimFloat.is_nan. rewrite !FloatAxioms.eqb_spec.
  rewrite FloatAxioms.div_spec.
  destruct (FloatOps.Prim2SF x) as [sx|sx| |sx mx ex] eqn:X; intros N;
    try reflexivity.
  - destruct sx; discriminate N.
  - destruct sx; discriminate N.
  - exfalso. revert N. unfold SpecFloat.SFeqb, SpecFloat.SFcompare.
    destruct sx; rewrite ?Z.compare_refl, ?Pos.compare_cont_refl,
      ?Pos.compare_refl; discriminate.
Qed.


(** C10.  The moments do not depend on [nq]. *)
Theorem nu_perturb_ignores_nq {F} `{Num F} (interp : Interpolant F)
        (a amnu_ : F) (psi0 psi1 psi2 : list F) (nq1 nq2 : nat) (qmax : F) :
  nu_perturb_jax interp a amnu_ psi0 psi1 psi2 nq1 qmax
  = nu_perturb_jax interp a amnu_ psi0 psi1 psi2 nq2 qmax
  /\ nu_perturb_numpy interp a amnu_ psi0 psi1 psi2 nq1 qmax
     = nu_perturb_numpy interp a amnu_ psi0 psi1 psi2 nq2 qmax.
Proof. split; reflexivity. Qed.

(** ** The constructor *)

Lemma is_zero_R (x : R) : is_zero x = false <-> x <> 0.
Proof.
  cbn [is_zero R_Num]. destruct (Req_dec_T x 0) as [E|E]; split; intros N;
    try discriminate; try reflexivity; try assumption. now elim N.
Qed.

Lemma Q2R_pos (n : Z) (d : positive) : (0 < n)%Z -> 0 < Q2R (n # d).
Proof.
  intros Hn. unfold Q2R. cbn [Qnum Qden].
  apply Rmult_lt_0_compat; [now apply IZR_lt|].
  apply Rinv_0_lt_compat. apply IZR_lt. reflexivity.
Qed.

Lemma Tcmb_nonzero_R (args : cosmo_args R) :
  arg_Tcmb args <> 0 -> Tcmb_nonzero args.
Proof.
  intros HT. split; apply is_zero_R; [exact HT|]. to_R.
  pose proof (Q2R_pos 100000000000 (n:=28948) eq_refl).
  apply Rmult_integral_contrapositive_currified; [lra|].
  apply pow_nonzero. exact HT.
Qed.

(** With non-negative radiation, dark-energy and curvature terms, the
    five-term derivative of the specification is strictly below what
    [dtauda_] returns. *)
Lemma dtauda_spec_below_code (a g gg gr Om OL Ko Ne Nm : R) (s : R -> R) :
  0 < a -> 0 < g -> 0 < Om -> 0 < gg ->
  0 <= gr * (Ne + Nm * s a) -> 0 <= g * OL * a ^ 4 -> 0 <= g * Ko * a ^ 2 ->
  dtauda_spec a g gg gr Om OL Ko Ne Nm s < dtauda_ a g gg gr Om OL Ko Ne Nm s.
Proof.
  intros Ha Hg HOm Hgg Hr HL Hk.
  unfold dtauda_spec, grho2_spec, dtauda_. cbv zeta. to_R.
  rewrite Q2R_int.
  assert (M : 0 < g * Om * a) by (repeat apply Rmult_lt_0_compat; lra).
  set (S := g * Om * a + (gg + gr * (Ne + Nm * s a)) + g * OL * a ^ 4
            + g * Ko * a ^ 2) in *.
  assert (HS : g * Om * a < S) by (unfold S; lra).
  apply sqrt_lt_1_alt. split.
  - apply Rlt_le. apply Rdiv_lt_0_compat; lra.
  - unfold Rdiv. apply Rmult_lt_compat_l; [lra|].
    apply Rinv_lt_contravar; [|exact HS].
    apply Rmult_lt_0_compat; lra.
Qed.

(** C8, evaluated where it fails.  For Omegam = 0.3, Omegab = 0.05,
    OmegaL = 0.7, H0 = 67, Tcmb = 2.725, YHe = 0.245, Neff = 3.046 and no
    massive species, whatever spline, grid, quadrature and thermal solver
    are used: the constructor stores [taumin = 1e-9 / (2.8948e-7 * Tcmb^2)]
    and [taumax = taumin + romb(f, log 1e-9, log 1.01)] where [f] is the
    matter-only integrand [exp(x) * sqrt(3 / (grhom * Omegam * exp(x)))];
    at every point [f] is strictly above the integrand of the
    specification, built on the five-term sum. *)
Theorem cosmo_taumax_matter_only (jaxinterp : Interpolant R)
        (geomspace : R -> R -> nat -> list R)
        (romb : (R -> R) -> R -> R -> R)
        (pthermo_compute :
           R -> R -> nat -> R -> R -> R -> R -> R -> R -> R -> Z ->
           spline R -> thermal_history R) :
  exists p,
    cosmo_init jaxinterp geomspace romb pthermo_compute Example.args = Ok p
    /\ taumin p
       = Q2R (1 # 1000000000)
         / (Q2R (28948 # 100000000000) * (2725 / 1000) ^ 2)
    /\ taumax p
       = taumin p
         + romb (fun x =>
                   exp x
                   * sqrt (3 / (Q2R (33379 # 1000000000000000) * 67 ^ 2
                                * (3 / 10) * exp x)))
                (ln (Q2R (1 # 1000000000))) (ln (Q2R (101 # 100)))
    /\ forall x,
         exp x
         * dtauda_spec (exp x) (grhom p) (grhog p) (grhor p) (Omegam p)
                       (OmegaL p) (Omegak p) (Neff p) (IZR (Nmnu p))
                       (evaluate jaxinterp (rhonu_of_a_spline p))
         < exp x
           * sqrt (3 / (Q2R (33379 # 1000000000000000) * 67 ^ 2
                        * (3 / 10) * exp x)).
Proof.
  assert (HT : arg_Tcmb Example.args <> 0)
    by (unfold Example.args; cbn [arg_Tcmb]; lra).
  destruct (@Tcmb_nonzero_R Example.args HT) as [Z A].
  destruct (ninu1_table_ok jaxinterp
              (geomspace amin_const amax_const num_thermo)
              (fdiv (fmul (arg_mnu Example.args) c2ok)
                    (arg_Tcmb Example.args)))
    as [tab Htab].
  unfold cosmo_init, py_div. cbv zeta. rewrite Z. cbn [bind].
  rewrite Htab. cbn [bind]. rewrite A. cbn [bind].
  eexists. split; [reflexivity|].
  cbn [taumin taumax grhom grhog grhor Omegam OmegaL Omegak Neff Nmnu
       rhonu_of_a_spline].
  unfold Example.args, amin_const, amax_const, tau_integrand.
  cbn [arg_Omegam arg_OmegaL arg_H0 arg_Tcmb arg_Neff arg_Nmnu arg_mnu].
  split; [reflexivity|]. split.
  - unfold dtauda_. cbv zeta. to_R. rewrite Q2R_int. reflexivity.
  - intros x. apply Rmult_lt_compat_l; [apply exp_pos|].
    pose proof (exp_pos x) as Hx.
    pose proof (Q2R_pos 1000000000000000 (n:=33379) eq_refl) as G.
    pose proof (Q2R_pos 100000000000000000 (n:=14952) eq_refl) as GG.
    pose proof (Q2R_pos 1000000000000000000 (n:=33957) eq_refl) as GR.
    set (s := evaluate jaxinterp _).
    replace (sqrt (3 / (Q2R (33379 # 1000000000000000) * 67 ^ 2
                        * (3 / 10) * exp x)))
      with (dtauda_ (exp x)
              (Q2R (33379 # 1000000000000000) * 67 ^ 2)
              (Q2R (14952 # 100000000000000000) * (2725 / 1000) ^ 4)
              (Q2R (33957 # 1000000000000000000) * (2725 / 1000) ^ 4)
              (3 / 10) (7 / 10) (Q2R 0) (3046 / 1000) (IZR 0) s)
      by (unfold dtauda_; cbv zeta; to_R; now rewrite Q2R_int).
    to_R. apply dtauda_spec_below_code; rewrite ?Q2R_zero; nra.
Qed.

(** C9.  In every bundle the constructor returns, whatever [Omegam] and
    [OmegaL] were passed and stored, the entry [Omegak] is [0.0]. *)
Theorem cosmo_Omegak_zero {F} `{Num F} (jaxinterp : Interpolant F)
        (geomspace : F -> F -> nat -> list F)
        (romb : (F -> F) -> F -> F -> F)
        (pthermo_compute :
           F -> F -> nat -> F -> F -> F -> F -> F -> F -> F -> Z ->
           spline F -> thermal_history F)
        (args : cosmo_args F) (p : cosmo_param F) :
  cosmo_init jaxinterp geomspace romb pthermo_compute args = Ok p ->
  Omegak p = lit 0
  /\ Omegam p = arg_Omegam args
  /\ OmegaL p = arg_OmegaL args.
Proof.
  intros Hp.
  destruct (@cosmo_init_ok F _ jaxinterp geomspace romb pthermo_compute args
              (@cosmo_init_inv F _ jaxinterp geomspace romb pthermo_compute
                               args p Hp))
    as (tab & _ & p' & Hp' & Hk & Hm & HL & _).
  rewrite Hp in Hp'. apply Ok_inj in Hp'. subst p'.
  exact (conj Hk (conj Hm HL)).
Qed.

(** A flat universe was not asked for, and [Omegak] is zero all the same:
    [Omegam = 0.3] and [OmegaL = 0]. *)
Lemma cosmo_Omegak_zero_witness :
  exists p,
    cosmo_init LinearSpline.linear Example.geomspace Example.romb
               Example.pthermo_compute Example.args_massive = Ok p
    /\ Omegak p = 0
    /\ 1 - Omegam p - OmegaL p <> 0.
Proof.
  assert (HT : arg_Tcmb Example.args_massive <> 0)
    by (unfold Example.args_massive; cbn [arg_Tcmb]; lra).
  destruct (@cosmo_init_ok R _ LinearSpline.linear Example.geomspace
              Example.romb Example.pthermo_compute Example.args_massive
              (@Tcmb_nonzero_R Example.args_massive HT))
    as (tab & _ & p & Hp & _).
  exists p. split; [exact Hp|].
  destruct (@cosmo_Omegak_zero R _ LinearSpline.linear Example.geomspace
              Example.romb Example.pthermo_compute Example.args_massive p Hp)
    as (Hk & Hm & HL).
  split.
  - rewrite Hk. apply Q2R_zero.
  - rewrite Hm, HL. unfold Example.args_massive.
    cbn [arg_Omegam arg_OmegaL]. lra.
Defined.
End Claims.

(** * Further properties *)

(** ** Length-one sequences *)

Section Stretch.
Context {F : Type} `{Num F}.
Variable interp : Interpolant F.

Lemma broadcast_stretch (f : F -> F -> F) (n : nat) (qdn psi : list F) :
  length qdn = n -> broadcast f qdn psi = broadcast f qdn (stretch n psi).
Proof.
  intros Lq. unfold stretch.
  destruct (Nat.eqb (length psi) n) eqn:E; [reflexivity|].
  destruct psi as [|p [|p' psi]]; try reflexivity.
  rewrite (broadcast_same_length f qdn (repeat p n))
    by (rewrite repeat_length; exact Lq).
  rewrite <- Lq, <- zip_with_repeat_r.
  apply Nat.eqb_neq in E. simpl in E.
  unfold broadcast. simpl length.
  destruct (Nat.eqb (length qdn) 1) eqn:E1.
  - apply Nat.eqb_eq in E1. congruence.
  - destruct qdn as [|x [|x' qdn]]; simpl in *; congruence.
Qed.

Lemma stretch_length (n : nat) (psi : list F) :
  compatible n (length psi) = true -> length (stretch n psi) = n.
Proof.
  unfold compatible, stretch. intros C.
  destruct (Nat.eqb (length psi) n) eqn:E.
  - now apply Nat.eqb_eq in E.
  - simpl in C. apply Nat.eqb_eq in C.
    destruct psi as [|p [|p' psi]]; simpl in C; try discriminate.
    apply repeat_length.
Qed.

Lemma nu_perturb_stretch (a amnu_ : F) (psi0 psi1 psi2 : list F)
      (nq : nat) (qmax : F) :
  nu_perturb interp a amnu_ psi0 psi1 psi2 nq qmax
  = nu_perturb interp a amnu_ psi0 (stretch (length psi0) psi1)
               (stretch (length psi0) psi2) nq qmax.
Proof.
  unfold nu_perturb. cbv zeta.
  remember (length psi0) as n eqn:En.
  rewrite broadcast_same_length by (now rewrite !length_map).
  cbn [bind].
  set (qdn := zip_with fdiv _ _).
  assert (Lq : length qdn = n).
  { unfold qdn. rewrite zip_with_length by (now rewrite !length_map).
    rewrite !length_map. apply (arange_length 1 n). }
  rewrite (@broadcast_stretch fmul n qdn psi1 Lq).
  rewrite (@broadcast_stretch fmul n qdn psi2 Lq).
  reflexivity.
Qed.

Lemma nu_perturb_is_ok (a amnu_ : F) (psi0 psi1 psi2 : list F)
      (nq : nat) (qmax : F) :
  is_ok (nu_perturb interp a amnu_ psi0 psi1 psi2 nq qmax)
  = compatible (length psi0) (length psi1)
    && compatible (length psi0) (length psi2).
Proof.
  destruct (compatible (length psi0) (length psi1)) eqn:C1;
    [destruct (compatible (length psi0) (length psi2)) eqn:C2|]; simpl.
  - rewrite nu_perturb_stretch.
    rewrite nu_perturb_unfold by (now apply stretch_length). reflexivity.
  - rewrite nu_perturb_mismatch; [reflexivity|]. right.
    unfold compatible in C2. apply orb_false_iff in C2.
    destruct C2 as [A B]. apply Nat.eqb_neq in A, B. now split.
  - rewrite nu_perturb_mismatch; [reflexivity|]. left.
    unfold compatible in C1. apply orb_false_iff in C1.
    destruct C1 as [A B]. apply Nat.eqb_neq in A, B. now split.
Qed.
End Stretch.

(** ** Momentum quadrature, continued *)

Section QuadratureExtras.
Local Open Scope R_scope.

(** X2.  [ninu1] sees the scale factor and the mass only through their
    product [a * amnu]. *)
Theorem ninu1_depends_on_product {F} `{Num F} (interp : Interpolant F)
        (a1 m1 a2 m2 : F) (nq : nat) (qmax : F) :
  fmul a1 m1 = fmul a2 m2 ->
  ninu1 interp a1 m1 nq qmax = ninu1 interp a2 m2 nq qmax.
Proof. intros E. unfold ninu1. rewrite E. reflexivity. Qed.

Lemma ninu1_depends_on_product_witness :
  ninu1 LinearSpline.linear 2 3 1000 (lit 30)
  = ninu1 LinearSpline.linear 3 2 1000 (lit 30).
Proof.
  apply (@ninu1_depends_on_product R _ LinearSpline.linear 2 3 3 2 1000
           (lit 30)).
  to_R. ring.
Defined.



Lemma velocity_antitone (x y : R) :
  0 <= x <= y -> velocity y <= velocity x.
Proof.
  intros [Hx Hxy]. unfold velocity. to_R.
  assert (Sx : 0 < sqrt (1 + x ^ 2)) by (apply sqrt_lt_R0; simpl; nra).
  assert (S : sqrt (1 + x ^ 2) <= sqrt (1 + y ^ 2))
    by (apply sqrt_le_1_alt; simpl; nra).
  unfold Rdiv. rewrite !Rmult_1_l.
  apply Rinv_le_contravar; assumption.
Qed.

Lemma ninu1_grid_pos (nq : nat) (qmax qi : R) :
  0 < qmax -> In qi (ninu1_grid nq qmax) -> 0 < qi.
Proof.
  intros Hq Hin. unfold ninu1_grid, arange in Hin.
  apply in_map_iff in Hin. destruct Hin as (i & <- & Hi).
  apply in_seq in Hi.
  assert (P : forall k, (0 < k)%nat -> 0 < @of_nat R _ k).
  { intros k Hk. unfold of_nat. to_R. rewrite <- INR_IZR_INZ.
    now apply lt_0_INR. }
  to_R. apply Rmult_lt_0_compat.
  - apply Rdiv_lt_0_compat; [exact Hq|]. fold (@of_nat R _ nq).
    apply P. lia.
  - fold (@of_nat R _ i). apply P. lia.
Qed.

Lemma Forall2_map_same {A B} (P : B -> B -> Prop) (f g : A -> B)
      (l : list A) :
  (forall x, In x l -> P (f x) (g x)) -> Forall2 P (map f l) (map g l).
Proof.
  induction l as [|x l IH]; intros Hl; simpl; constructor.
  - apply Hl. now left.
  - apply IH. intros y Hy. apply Hl. now right.
Qed.

(** X4.  In exact arithmetic, for [a >= 0] and a grid with [qmax > 0]:
    entry by entry, the density samples handed to the spline do not
    decrease when the mass grows, and the pressure samples do not
    increase. *)
Theorem ninu1_samples_monotone (a m1 m2 : R) (nq : nat) (qmax : R) :
  0 <= a -> 0 <= m1 <= m2 -> (0 < nq)%nat -> 0 < qmax ->
  let dq := qmax / of_nat nq in
  let q  := ninu1_grid nq qmax in
  Forall2 Rle (map (dum1_at a m1 dq) q) (map (dum1_at a m2 dq) q)
  /\ Forall2 Rle (map (dum2_at a m2 dq) q) (map (dum2_at a m1 dq) q).
Proof.
  intros Ha Hm Hnq Hq. cbv zeta.
  assert (D : 0 < qmax / of_nat nq).
  { apply Rdiv_lt_0_compat; [exact Hq|]. unfold of_nat. to_R.
    rewrite <- INR_IZR_INZ. now apply lt_0_INR. }
  split; apply Forall2_map_same; intros qi Hin;
    pose proof (@ninu1_grid_pos nq qmax qi Hq Hin) as Hqi.
  - now apply dum1_at_monotone.
  - unfold dum2_at. change (@fmul R R_Num) with Rmult.
    change (@fdiv R R_Num) with Rdiv.
    apply Rmult_le_compat_l.
    + left. now apply qdn_at_pos.
    + apply velocity_antitone. destruct Hm as [Hm1 Hm].
      split.
      * apply Rmult_le_pos; [nra|]. left. now apply Rinv_0_lt_compat.
      * apply Rmult_le_compat_r;
          [left; now apply Rinv_0_lt_compat | nra].
Qed.

Lemma ninu1_samples_monotone_witness :
  Forall2 Rle (map (dum1_at 1 0 (30 / of_nat 1000)) (ninu1_grid 1000 30))
              (map (dum1_at 1 350 (30 / of_nat 1000)) (ninu1_grid 1000 30))
  /\ Forall2 Rle (map (dum2_at 1 350 (30 / of_nat 1000)) (ninu1_grid 1000 30))
                 (map (dum2_at 1 0 (30 / of_nat 1000)) (ninu1_grid 1000 30)).
Proof.
  apply (@ninu1_samples_monotone 1 0 350 1000 30);
    [lra | lra | apply Nat.lt_0_succ | lra].
Defined.
End QuadratureExtras.

(** ** Perturbation moments, continued *)

Section PerturbationExtras.
Local Open Scope R_scope.

(** X6.  A call returns a value exactly when [psi1] and [psi2] each have
    the length of [psi0] or length one; the values in the sequences, [a],
    [amnu], [nq] and [qmax] play no part in it. *)
Theorem nu_perturb_succeeds_iff_compatible {F} `{Num F}
        (interp : Interpolant F) (a amnu_ : F) (psi0 psi1 psi2 : list F)
        (nq : nat) (qmax : F) :
  is_ok (nu_perturb_jax interp a amnu_ psi0 psi1 psi2 nq qmax)
  = compatible (length psi0) (length psi1)
    && compatible (length psi0) (length psi2)
  /\ is_ok (nu_perturb_numpy interp a amnu_ psi0 psi1 psi2 nq qmax)
     = compatible (length psi0) (length psi1)
       && compatible (length psi0) (length psi2).
Proof.
  unfold nu_perturb_jax, nu_perturb_numpy.
  split; apply nu_perturb_is_ok.
Qed.

(** X7.  A [psi1] and a [psi2] of length one give the result of the
    constant sequences of the length of [psi0]. *)
Theorem nu_perturb_length_one_is_constant {F} `{Num F}
        (interp : Interpolant F) (a amnu_ : F) (psi0 : list F) (p1 p2 : F)
        (nq : nat) (qmax : F) :
  nu_perturb_jax interp a amnu_ psi0 [p1] [p2] nq qmax
  = nu_perturb_jax interp a amnu_ psi0 (repeat p1 (length psi0))
                   (repeat p2 (length psi0)) nq qmax.
Proof.
  unfold nu_perturb_jax.
  rewrite nu_perturb_stretch.
  rewrite (nu_perturb_stretch interp a amnu_ psi0
             (repeat p1 (length psi0)) (repeat p2 (length psi0))).
  assert (S : forall p : F,
             stretch (length psi0) [p]
             = stretch (length psi0) (repeat p (length psi0))).
  { intros p. unfold stretch. rewrite repeat_length, Nat.eqb_refl.
    simpl length. destruct (Nat.eqb 1 (length psi0)) eqn:E; [|reflexivity].
    apply Nat.eqb_eq in E. rewrite <- E. reflexivity. }
  rewrite !S. reflexivity.
Qed.

(** X8.  The integrators see the scale factor and the mass only through
    their product [a * amnu]. *)
Theorem nu_perturb_depends_on_product {F} `{Num F} (interp : Interpolant F)
        (a1 m1 a2 m2 : F) (psi0 psi1 psi2 : list F) (nq : nat) (qmax : F) :
  fmul a1 m1 = fmul a2 m2 ->
  nu_perturb_jax interp a1 m1 psi0 psi1 psi2 nq qmax
  = nu_perturb_jax interp a2 m2 psi0 psi1 psi2 nq qmax.
Proof.
  intros E. unfold nu_perturb_jax, nu_perturb. rewrite E. reflexivity.
Qed.

Lemma nu_perturb_depends_on_product_witness :
  nu_perturb_jax LinearSpline.linear 2 3 [1; 2; 3] [4; 5; 6] [7; 8; 9]
                 1000 (lit 30)
  = nu_perturb_jax LinearSpline.linear 3 2 [1; 2; 3] [4; 5; 6] [7; 8; 9]
                   1000 (lit 30).
Proof.
  apply (@nu_perturb_depends_on_product R _ LinearSpline.linear 2 3 3 2).
  to_R. ring.
Defined.



Lemma zip_with_ext (f g : R -> R -> R) (xs ys : list R) :
  (forall x y, f x y = g x y) -> zip_with f xs ys = zip_with g xs ys.
Proof.
  intros E. revert ys. induction xs as [|x xs IH]; intros [|y ys]; simpl;
    try reflexivity. now rewrite E, IH.
Qed.


End PerturbationExtras.

(** ** The loop over the scale-factor grid *)

Section LoopFacts.
Context {F : Type} `{Num F}.
Variable jaxinterp : Interpolant F.

Lemma set_at_app (l t : list F) (x v : F) (k : nat) :
  length l = k -> set_at (l ++ x :: t) k v = l ++ v :: t.
Proof.
  revert k. induction l as [|y l IH]; intros k L; simpl in *; subst k.
  - reflexivity.
  - now rewrite IH.
Qed.

Lemma skipn_step (l : list F) (k : nat) :
  (k < length l)%nat -> exists x, skipn k l = x :: skipn (S k) l.
Proof.
  revert k. induction l as [|y l IH]; intros k L; simpl in L; [lia|].
  destruct k as [|k].
  - now exists y.
  - apply IH. lia.
Qed.

Lemma firstn_snoc (l : list F) (k : nat) (d : F) :
  (k < length l)%nat -> firstn (S k) l = firstn k l ++ [nth k l d].
Proof.
  revert k. induction l as [|y l IH]; intros k L; simpl in L; [lia|].
  destruct k as [|k]; [reflexivity|].
  change (firstn (S (S k)) (y :: l)) with (y :: firstn (S k) l).
  rewrite (IH k) by lia. reflexivity.
Qed.

Lemma firstn_length_exact (l : list F) (k : nat) :
  (k <= length l)%nat -> length (firstn k l) = k.
Proof.
  revert k. induction l as [|y l IH]; intros [|k] L; simpl in *;
    try reflexivity; try lia. rewrite IH by lia. reflexivity.
Qed.

(** After [k] passes the first [k] entries hold the values of [ninu1] and
    the rest is untouched. *)
Lemma ninu1_loop_prefix (a : list F) (amnu_ : F) (z1 z2 : list F) :
  length z1 = length a -> length z2 = length a ->
  forall k, (k <= length a)%nat ->
    fold_left (ninu1_step jaxinterp a amnu_) (seq 0 k) (Ok (z1, z2))
    = Ok (map (fun ai => fst (ninu1_formula jaxinterp ai amnu_ 1000 (lit 30)))
              (firstn k a) ++ skipn k z1,
          map (fun ai => snd (ninu1_formula jaxinterp ai amnu_ 1000 (lit 30)))
              (firstn k a) ++ skipn k z2).
Proof.
  intros L1 L2. induction k as [|k IH]; intros Hk.
  - reflexivity.
  - rewrite seq_S, fold_left_app, IH by lia. cbn [fold_left Nat.add].
    unfold ninu1_step. cbn [bind]. rewrite ninu1_default. cbn [bind fst snd].
    destruct (@skipn_step z1 k) as [x1 E1]; [lia|].
    destruct (@skipn_step z2 k) as [x2 E2]; [lia|].
    rewrite E1, E2.
    rewrite !set_at_app by (rewrite length_map; apply firstn_length_exact; lia).
    rewrite (@firstn_snoc a k (last_elt a)) by lia.
    rewrite !map_app. cbn [map]. rewrite <- !app_assoc. reflexivity.
Qed.

Lemma ninu1_table_fills (a : list F) (amnu_ : F) :
  length a = num_thermo ->
  ninu1_table jaxinterp a amnu_ = Ok (ninu1_table_spec jaxinterp a amnu_).
Proof.
  intros L. unfold ninu1_table, arange. rewrite Nat.sub_0_r, <- L.
  rewrite ninu1_loop_prefix
    by (unfold zeros; rewrite ?repeat_length; auto).
  rewrite firstn_all, !skipn_all2
    by (unfold zeros; rewrite repeat_length; auto).
  rewrite !app_nil_r. reflexivity.
Qed.
End LoopFacts.

(** ** The constructor, continued *)

Section ConstructorExtras.
Local Open Scope R_scope.

(** X11.  On a grid of [num_thermo] scale factors the loop of the
    constructor fills the whole table: entry [i] of the density and of the
    pressure array is [ninu1(a[i], amnu)], and no entry keeps its initial
    zero. *)
Theorem ninu1_table_is_map {F} `{Num F} (jaxinterp : Interpolant F)
        (a : list F) (amnu_ : F) :
  length a = num_thermo ->
  ninu1_table jaxinterp a amnu_
  = Ok (map (fun ai => fst (ninu1_formula jaxinterp ai amnu_ 1000 (lit 30))) a,
        map (fun ai => snd (ninu1_formula jaxinterp ai amnu_ 1000 (lit 30))) a)
  /\ forall ai, In ai a ->
       ninu1 jaxinterp ai amnu_ 1000 (lit 30)
       = Ok (ninu1_formula jaxinterp ai amnu_ 1000 (lit 30)).
Proof.
  intros L. split.
  - now apply ninu1_table_fills.
  - intros ai _. apply ninu1_default.
Qed.

Lemma ninu1_table_is_map_witness :
  length (repeat 1 num_thermo) = num_thermo
  /\ forall ai, In ai (repeat 1 num_thermo) ->
       ninu1 LinearSpline.linear ai 0 1000 (lit 30)
       = Ok (ninu1_formula LinearSpline.linear ai 0 1000 (lit 30)).
Proof.
  split; [apply repeat_length|].
  exact (proj2 (@ninu1_table_is_map R _ LinearSpline.linear
                  (repeat 1 num_thermo) 0 (repeat_length 1 num_thermo))).
Defined.

Lemma ninu1_formula_massless (interp : Interpolant R) (nq : nat) (qmax : R) :
  (0 < nq)%nat ->
  exists rho, forall a,
    ninu1_formula interp a 0 nq qmax = (rho, rho / 3).
Proof.
  intros Hnq.
  destruct (ninu1_massless_pressure interp 1 qmax Hnq) as [rho E].
  exists rho. intros a. apply Ok_inj.
  rewrite <- (ninu1_unfold interp a 0 qmax Hnq).
  rewrite (ninu1_massless_scale_free interp a 1). exact E.
Qed.

Lemma map_constant {A} (f : A -> R) (c : R) (l : list A) :
  (forall x, f x = c) -> map f l = repeat c (length l).
Proof.
  intros E. induction l as [|x l IH]; simpl; [reflexivity|].
  now rewrite E, IH.
Qed.

(** X12.  In exact arithmetic, for a massless species the table is flat:
    every density entry is the same number and every pressure entry is a
    third of it, whatever the grid of [num_thermo] scale factors. *)
Theorem ninu1_table_massless (jaxinterp : Interpolant R) :
  exists rho, forall a : list R,
    length a = num_thermo ->
    ninu1_table jaxinterp a 0
    = Ok (repeat rho num_thermo, repeat (rho / 3) num_thermo).
Proof.
  destruct (@ninu1_formula_massless jaxinterp 1000 (lit 30)
              (Nat.lt_0_succ 999)) as [rho E].
  exists rho. intros a L.
  rewrite ninu1_table_fills by exact L. unfold ninu1_table_spec.
  assert (E1 : map (fun ai => fst (ninu1_formula jaxinterp ai 0 1000
                                                 (lit 30))) a
               = repeat rho (length a))
    by (apply map_constant; intros ai; now rewrite E).
  assert (E2 : map (fun ai => snd (ninu1_formula jaxinterp ai 0 1000
                                                 (lit 30))) a
               = repeat (rho / 3) (length a))
    by (apply map_constant; intros ai; now rewrite E).
  rewrite E1, E2, L. reflexivity.
Qed.

(** X13.  The arguments [rtol], [atol] and [order] are accepted and never
    used: two calls that differ in them only give the same result. *)
Theorem cosmo_ignores_tolerances {F} `{Num F} (jaxinterp : Interpolant F)
        (geomspace : F -> F -> nat -> list F)
        (romb : (F -> F) -> F -> F -> F)
        (pthermo_compute :
           F -> F -> nat -> F -> F -> F -> F -> F -> F -> F -> Z ->
           spline F -> thermal_history F)
        (Om Ob OL h T Y Ne m rtol1 atol1 rtol2 atol2 : F)
        (Nm order1 order2 : Z) :
  cosmo_init jaxinterp geomspace romb pthermo_compute
    {| arg_Omegam := Om; arg_Omegab := Ob; arg_OmegaL := OL; arg_H0 := h;
       arg_Tcmb := T; arg_YHe := Y; arg_Neff := Ne; arg_Nmnu := Nm;
       arg_mnu := m; arg_rtol := rtol1; arg_atol := atol1;
       arg_order := order1 |}
  = cosmo_init jaxinterp geomspace romb pthermo_compute
      {| arg_Omegam := Om; arg_Omegab := Ob; arg_OmegaL := OL; arg_H0 := h;
         arg_Tcmb := T; arg_YHe := Y; arg_Neff := Ne; arg_Nmnu := Nm;
         arg_mnu := m; arg_rtol := rtol2; arg_atol := atol2;
         arg_order := order2 |}.
Proof.
  unfold cosmo_init.
  cbn [arg_Omegam arg_Omegab arg_OmegaL arg_H0 arg_Tcmb arg_YHe arg_Neff
       arg_Nmnu arg_mnu].
  reflexivity.
Qed.

(** X14.  The stored conformal-time bounds depend on the arguments through
    [H0], [Omegam] and [Tcmb] only: changing [Omegab], [OmegaL], [YHe],
    [Neff], [Nmnu] or [mnu] changes neither [taumin] nor [taumax]. *)
Theorem cosmo_tau_bounds_depend_on_matter_only {F} `{Num F}
        (jaxinterp : Interpolant F)
        (geomspace : F -> F -> nat -> list F)
        (romb : (F -> F) -> F -> F -> F)
        (pthermo_compute :
           F -> F -> nat -> F -> F -> F -> F -> F -> F -> F -> Z ->
           spline F -> thermal_history F)
        (args1 args2 : cosmo_args F) :
  arg_H0 args1 = arg_H0 args2 ->
  arg_Omegam args1 = arg_Omegam args2 ->
  arg_Tcmb args1 = arg_Tcmb args2 ->
  rmap (fun p => (taumin p, taumax p))
       (cosmo_init jaxinterp geomspace romb pthermo_compute args1)
  = rmap (fun p => (taumin p, taumax p))
         (cosmo_init jaxinterp geomspace romb pthermo_compute args2).
Proof.
  intros Eh Em Et.
  destruct (ninu1_table_ok jaxinterp
              (geomspace amin_const amax_const num_thermo)
              (fmul (arg_mnu args1) c2ok / arg_Tcmb args1)%num)
    as [tab1 Htab1].
  destruct (ninu1_table_ok jaxinterp
              (geomspace amin_const amax_const num_thermo)
              (fmul (arg_mnu args2) c2ok / arg_Tcmb args1)%num)
    as [tab2 Htab2].
  unfold cosmo_init, py_div. cbv zeta. rewrite <- Eh, <- Em, <- Et.
  destruct (is_zero (arg_Tcmb args1)); cbn [bind rmap]; [reflexivity|].
  rewrite Htab1, Htab2. cbn [bind].
  destruct (is_zero _); cbn [bind rmap taumin taumax]; reflexivity.
Qed.

Lemma cosmo_tau_bounds_depend_on_matter_only_witness :
  rmap (fun p => (taumin p, taumax p))
       (cosmo_init LinearSpline.linear Example.geomspace Example.romb
                   Example.pthermo_compute Example.args)
  = rmap (fun p => (taumin p, taumax p))
         (cosmo_init LinearSpline.linear Example.geomspace Example.romb
                     Example.pthermo_compute Example.args_massive).
Proof.
  apply (@cosmo_tau_bounds_depend_on_matter_only R _ LinearSpline.linear
           Example.geomspace Example.romb Example.pthermo_compute
           Example.args Example.args_massive); reflexivity.
Defined.

(** What the constructor stores, read off a successful run. *)
Lemma cosmo_tables_ok {F} `{Num F} (jaxinterp : Interpolant F)
        (geomspace : F -> F -> nat -> list F)
        (romb : (F -> F) -> F -> F -> F)
        (pthermo_compute :
           F -> F -> nat -> F -> F -> F -> F -> F -> F -> F -> Z ->
           spline F -> thermal_history F)
        (args : cosmo_args F) :
  Tcmb_nonzero args ->
  exists p,
    cosmo_init jaxinterp geomspace romb pthermo_compute args = Ok p
    /\ (knots (tempb_of_tau_spline p) = knots (cs2_of_tau_spline p)
  /\ knots (xe_of_tau_spline p) = knots (cs2_of_tau_spline p)
  /\ knots (a_of_tau_spline p) = knots (cs2_of_tau_spline p)
  /\ knots (tau_of_a_spline p) = samples (a_of_tau_spline p)
  /\ samples (tau_of_a_spline p) = knots (a_of_tau_spline p)
  /\ knots (pnu_of_a_spline p) = knots (rhonu_of_a_spline p)
  /\ knots (rhonu_of_a_spline p) = geomspace (amin p) (amax p) num_thermo).
Proof.
  intros [Z A].
  destruct (ninu1_table_ok jaxinterp
              (geomspace amin_const amax_const num_thermo)
              (fmul (arg_mnu args) c2ok / arg_Tcmb args)%num)
    as [tab Htab].
  unfold cosmo_init, py_div. cbv zeta. rewrite Z. cbn [bind].
  rewrite Htab. cbn [bind]. rewrite A. cbn [bind].
  eexists. split; [reflexivity|].
  cbn [knots samples tempb_of_tau_spline cs2_of_tau_spline xe_of_tau_spline
       a_of_tau_spline tau_of_a_spline pnu_of_a_spline rhonu_of_a_spline
       amin amax].
  exact (conj eq_refl (conj eq_refl (conj eq_refl (conj eq_refl
          (conj eq_refl (conj eq_refl eq_refl)))))).
Qed.

Lemma cosmo_derived_ok {F} `{Num F} (jaxinterp : Interpolant F)
        (geomspace : F -> F -> nat -> list F)
        (romb : (F -> F) -> F -> F -> F)
        (pthermo_compute :
           F -> F -> nat -> F -> F -> F -> F -> F -> F -> F -> Z ->
           spline F -> thermal_history F)
        (args : cosmo_args F) :
  Tcmb_nonzero args ->
  exists p,
    cosmo_init jaxinterp geomspace romb pthermo_compute args = Ok p
    /\ (Omegac p = fsub (Omegam p) (Omegab p)
  /\ amnu p = fdiv (fmul (mnu p) (lit (162581581 # 10000))) (Tcmb p)
  /\ grhom p = fmul (lit (33379 # 1000000000000000)) (fpow (H0 p) 2)
  /\ grhog p = fmul (lit (14952 # 100000000000000000)) (fpow (Tcmb p) 4)
  /\ grhor p = fmul (lit (33957 # 1000000000000000000)) (fpow (Tcmb p) 4)
  /\ adotrad p = fmul (lit (28948 # 100000000000)) (fpow (Tcmb p) 2)
  /\ H0 p = arg_H0 args /\ Tcmb p = arg_Tcmb args /\ mnu p = arg_mnu args
  /\ Omegab p = arg_Omegab args /\ YHe p = arg_YHe args
  /\ Neff p = arg_Neff args /\ Nmnu p = arg_Nmnu args).
Proof.
  intros [Z A].
  destruct (ninu1_table_ok jaxinterp
              (geomspace amin_const amax_const num_thermo)
              (fmul (arg_mnu args) c2ok / arg_Tcmb args)%num)
    as [tab Htab].
  unfold cosmo_init, py_div. cbv zeta. rewrite Z. cbn [bind].
  rewrite Htab. cbn [bind]. rewrite A. cbn [bind].
  eexists. split; [reflexivity|].
  cbn [Omegac Omegam Omegab amnu mnu Tcmb grhom H0 grhog grhor adotrad YHe
       Neff Nmnu].
  unfold c2ok.
  exact (conj eq_refl (conj eq_refl (conj eq_refl (conj eq_refl
          (conj eq_refl (conj eq_refl (conj eq_refl (conj eq_refl
          (conj eq_refl (conj eq_refl (conj eq_refl
          (conj eq_refl eq_refl)))))))))))).
Qed.

Lemma cosmo_taumin_ok (jaxinterp : Interpolant R)
        (geomspace : R -> R -> nat -> list R)
        (romb : (R -> R) -> R -> R -> R)
        (pthermo_compute :
           R -> R -> nat -> R -> R -> R -> R -> R -> R -> R -> Z ->
           spline R -> thermal_history R)
        (args : cosmo_args R) :
  Tcmb_nonzero args ->
  exists p,
    cosmo_init jaxinterp geomspace romb pthermo_compute args = Ok p
    /\ (arg_Tcmb args <> 0 ->
        0 < taumin p /\ (arg_mnu args = 0 -> amnu p = 0)).
Proof.
  intros [Z A].
  destruct (ninu1_table_ok jaxinterp
              (geomspace amin_const amax_const num_thermo)
              (fmul (arg_mnu args) c2ok / arg_Tcmb args)%num)
    as [tab Htab].
  unfold cosmo_init, py_div. cbv zeta. rewrite Z. cbn [bind].
  rewrite Htab. cbn [bind]. rewrite A. cbn [bind].
  eexists. split; [reflexivity|].
  cbn [taumin amnu]. intros HT. split.
  - unfold amin_const. to_R.
    apply Rdiv_lt_0_compat.
    + unfold Q2R. simpl Qnum. simpl Qden.
      apply Rdiv_lt_0_compat; apply IZR_lt; reflexivity.
    + apply Rmult_lt_0_compat.
      * unfold Q2R. simpl Qnum. simpl Qden.
        apply Rdiv_lt_0_compat; apply IZR_lt; reflexivity.
      * simpl. nra.
  - intros Hm. rewrite Hm. to_R. unfold Rdiv. ring.
Qed.

(* The statements below have a constructor call in a hypothesis; this
   keeps the implicit-argument analysis from evaluating it. *)
Unset Implicit Arguments.

(** X15.  In the bundle the four tables in conformal time share one set
    of knots, the solver's [tau]; the table of [tau] against [a] is the
    table of [a] against [tau] with knots and samples exchanged; and the
    density and pressure tables share the scale-factor grid, whose bounds
    are the stored [amin] and [amax]. *)
Theorem cosmo_tables_share_knots {F} `{Num F} (jaxinterp : Interpolant F)
        (geomspace : F -> F -> nat -> list F)
        (romb : (F -> F) -> F -> F -> F)
        (pthermo_compute :
           F -> F -> nat -> F -> F -> F -> F -> F -> F -> F -> Z ->
           spline F -> thermal_history F)
        (args : cosmo_args F) (p : cosmo_param F) :
  cosmo_init jaxinterp geomspace romb pthermo_compute args = Ok p ->
  knots (tempb_of_tau_spline p) = knots (cs2_of_tau_spline p)
  /\ knots (xe_of_tau_spline p) = knots (cs2_of_tau_spline p)
  /\ knots (a_of_tau_spline p) = knots (cs2_of_tau_spline p)
  /\ knots (tau_of_a_spline p) = samples (a_of_tau_spline p)
  /\ samples (tau_of_a_spline p) = knots (a_of_tau_spline p)
  /\ knots (pnu_of_a_spline p) = knots (rhonu_of_a_spline p)
  /\ knots (rhonu_of_a_spline p) = geomspace (amin p) (amax p) num_thermo.
Proof.
  intros Hp.
  destruct (@cosmo_tables_ok F _ jaxinterp geomspace romb pthermo_compute args
              (@cosmo_init_inv F _ jaxinterp geomspace romb pthermo_compute
                               args p Hp))
    as (p' & Hp' & Fs).
  rewrite Hp in Hp'. apply Ok_inj in Hp'. subst p'. exact Fs.
Qed.

Lemma cosmo_tables_share_knots_witness :
  exists p,
    cosmo_init LinearSpline.linear Example.geomspace Example.romb
               Example.pthermo_compute Example.args = Ok p
    /\ knots (tau_of_a_spline p) = samples (a_of_tau_spline p).
Proof.
  assert (HT : arg_Tcmb Example.args <> 0)
    by (unfold Example.args; cbn [arg_Tcmb]; lra).
  destruct (@cosmo_init_ok R _ LinearSpline.linear Example.geomspace
              Example.romb Example.pthermo_compute Example.args
              (@Tcmb_nonzero_R Example.args HT))
    as (tab & _ & p & Hp & _).
  exists p. split; [exact Hp|].
  exact (proj1 (proj2 (proj2 (proj2
           (@cosmo_tables_share_knots R _ LinearSpline.linear
              Example.geomspace Example.romb Example.pthermo_compute
              Example.args p Hp))))).
Defined.

(** X16.  The derived entries of the bundle are tied to the stored
    arguments: [Omegac = Omegam - Omegab], [amnu = mnu * c2ok / Tcmb],
    [grhom] goes with [H0 ** 2], [grhog] and [grhor] with [Tcmb ** 4],
    [adotrad] with [Tcmb ** 2], and the arguments are stored unchanged. *)
Theorem cosmo_derived_entries {F} `{Num F} (jaxinterp : Interpolant F)
        (geomspace : F -> F -> nat -> list F)
        (romb : (F -> F) -> F -> F -> F)
        (pthermo_compute :
           F -> F -> nat -> F -> F -> F -> F -> F -> F -> F -> Z ->
           spline F -> thermal_history F)
        (args : cosmo_args F) (p : cosmo_param F) :
  cosmo_init jaxinterp geomspace romb pthermo_compute args = Ok p ->
  Omegac p = fsub (Omegam p) (Omegab p)
  /\ amnu p = fdiv (fmul (mnu p) (lit (162581581 # 10000))) (Tcmb p)
  /\ grhom p = fmul (lit (33379 # 1000000000000000)) (fpow (H0 p) 2)
  /\ grhog p = fmul (lit (14952 # 100000000000000000)) (fpow (Tcmb p) 4)
  /\ grhor p = fmul (lit (33957 # 1000000000000000000)) (fpow (Tcmb p) 4)
  /\ adotrad p = fmul (lit (28948 # 100000000000)) (fpow (Tcmb p) 2)
  /\ H0 p = arg_H0 args /\ Tcmb p = arg_Tcmb args /\ mnu p = arg_mnu args
  /\ Omegab p = arg_Omegab args /\ YHe p = arg_YHe args
  /\ Neff p = arg_Neff args /\ Nmnu p = arg_Nmnu args.
Proof.
  intros Hp.
  destruct (@cosmo_derived_ok F _ jaxinterp geomspace romb pthermo_compute args
              (@cosmo_init_inv F _ jaxinterp geomspace romb pthermo_compute
                               args p Hp))
    as (p' & Hp' & Fs).
  rewrite Hp in Hp'. apply Ok_inj in Hp'. subst p'. exact Fs.
Qed.

Lemma cosmo_derived_entries_witness :
  exists p,
    cosmo_init LinearSpline.linear Example.geomspace Example.romb
               Example.pthermo_compute Example.args = Ok p
    /\ Omegac p = fsub (Omegam p) (Omegab p).
Proof.
  assert (HT : arg_Tcmb Example.args <> 0)
    by (unfold Example.args; cbn [arg_Tcmb]; lra).
  destruct (@cosmo_init_ok R _ LinearSpline.linear Example.geomspace
              Example.romb Example.pthermo_compute Example.args
              (@Tcmb_nonzero_R Example.args HT))
    as (tab & _ & p & Hp & _).
  exists p. split; [exact Hp|].
  exact (proj1 (@cosmo_derived_entries R _ LinearSpline.linear
                  Example.geomspace Example.romb Example.pthermo_compute
                  Example.args p Hp)).
Defined.

(** X17.  In exact arithmetic, for a temperature other than zero the
    stored [taumin] is positive, and a massless species ([mnu = 0]) gets
    [amnu = 0]. *)
Theorem cosmo_taumin_positive (jaxinterp : Interpolant R)
        (geomspace : R -> R -> nat -> list R)
        (romb : (R -> R) -> R -> R -> R)
        (pthermo_compute :
           R -> R -> nat -> R -> R -> R -> R -> R -> R -> R -> Z ->
           spline R -> thermal_history R)
        (args : cosmo_args R) (p : cosmo_param R) :
  cosmo_init jaxinterp geomspace romb pthermo_compute args = Ok p ->
  arg_Tcmb args <> 0 ->
  0 < taumin p /\ (arg_mnu args = 0 -> amnu p = 0).
Proof.
  intros Hp.
  destruct (@cosmo_taumin_ok jaxinterp geomspace romb pthermo_compute args
              (@cosmo_init_inv R _ jaxinterp geomspace romb pthermo_compute
                               args p Hp))
    as (p' & Hp' & Fs).
  rewrite Hp in Hp'. apply Ok_inj in Hp'. subst p'. exact Fs.
Qed.

Lemma cosmo_taumin_positive_witness :
  exists p,
    cosmo_init LinearSpline.linear Example.geomspace Example.romb
               Example.pthermo_compute Example.args = Ok p
    /\ 0 < taumin p.
Proof.
  assert (HT : arg_Tcmb Example.args <> 0)
    by (unfold Example.args; cbn [arg_Tcmb]; lra).
  destruct (@cosmo_init_ok R _ LinearSpline.linear Example.geomspace
              Example.romb Example.pthermo_compute Example.args
              (@Tcmb_nonzero_R Example.args HT))
    as (tab & _ & p & Hp & _).
  exists p. split; [exact Hp|].
  exact (proj1 (@cosmo_taumin_positive LinearSpline.linear
                  Example.geomspace Example.romb Example.pthermo_compute
                  Example.args p Hp HT)).
Defined.
End ConstructorExtras.
